(** * localsocket: an in-process publish/subscribe hub

    A shallow embedding of [src/index.ts] and the properties of its
    dispatch engine: registration, the per-announce matching of single
    events and of trains of events, removal, reconnection and reset. *)

From Stdlib Require Import Ascii String ZArith Lia.
From stdpp Require Import base option list strings gmap.

Local Open Scope Z_scope.

(** ** Strings

    JavaScript strings are modelled by [string]; a character stands for
    one code unit below 256.  The operations are the ones [index.ts]
    calls: [trim], [startsWith], [includes], [join] and [===]. *)

Module Str.

(** White space and line terminators removed by [String.prototype.trim]
    (those with a code below 256: TAB, LF, VT, FF, CR, SP, NBSP). *)
Definition is_white_space (a : ascii) : bool :=
  match a with
  | "009" | "010" | "011" | "012" | "013" | " " | "160" => true
  | _ => false
  end%char.

Fixpoint trimStart (s : string) : string :=
  match s with
  | "" => ""
  | String a s' => if is_white_space a then trimStart s' else s
  end.

Fixpoint trimEnd (s : string) : string :=
  match s with
  | "" => ""
  | String a s' =>
      match trimEnd s' with
      | "" => if is_white_space a then "" else String a ""
      | t => String a t
      end
  end.

(** [s.trim()] *)
Definition trim (s : string) : string := trimEnd (trimStart s).

(** [s.startsWith(p)] *)
Fixpoint startsWith (s p : string) : bool :=
  match p, s with
  | "", _ => true
  | String _ _, "" => false
  | String a p', String b s' => Ascii.eqb a b && startsWith s' p'
  end.

(** [s.includes(p)] *)
Fixpoint includes (s p : string) : bool :=
  startsWith s p ||
  match s with
  | "" => false
  | String _ s' => includes s' p
  end.

(** [l.join(sep)] *)
Definition join (sep : string) (l : list string) : string :=
  String.concat sep l.

(** Truthiness of a string: only the empty string is falsy. *)
Definition truthy (s : string) : bool :=
  match s with "" => false | _ => true end.

(** A string without any white space character. *)
Fixpoint no_space (s : string) : bool :=
  match s with
  | "" => true
  | String a s' => negb (is_white_space a) && no_space s'
  end.

End Str.

(** ** Numbers

    A JavaScript number that is an integer, or [NaN].  [undefined] and a
    plain object both convert to [NaN], and every comparison with [NaN]
    is false. *)

Module Num.

Definition t : Type := option Z.

Definition NaN : t := None.

Definition of_nat (n : nat) : t := Some (Z.of_nat n).

(** [a >= b] *)
Definition ge (a b : t) : bool :=
  match a, b with Some x, Some y => (y <=? x) | _, _ => false end.

(** [a > b] *)
Definition gt (a b : t) : bool :=
  match a, b with Some x, Some y => (y <? x) | _, _ => false end.

(** [a < b] *)
Definition lt (a b : t) : bool :=
  match a, b with Some x, Some y => (x <? y) | _, _ => false end.

(** [a - b] *)
Definition sub (a b : t) : t :=
  match a, b with Some x, Some y => Some (x - y) | _, _ => None end.

(** Truthiness of a number: [0] and [NaN] are falsy. *)
Definition truthy (a : t) : bool :=
  match a with Some x => negb (x =? 0) | None => false end.

End Num.

(** ** The instance and its heap

    The model covers what the methods do when they are called with
    arguments of their declared types: event names and keys are
    strings, ceilings are integers.  Two things of the JavaScript
    objects are left out.  [this.keys] and [this.events] are plain
    objects read with [obj[name]], so a name that every object inherits
    ([constructor], [toString], ...) would be found in them without
    having been entered; such names, which [inherited] lists, are not
    considered.  The check [if (!this)] of the constructor cannot fail
    under [new]. *)

Module LocalSocket.

(** The names every object inherits from [Object.prototype].  A read
    [this.keys[name]] or [this.events[name]] of one of them finds the
    inherited value where nothing was entered; for every other name the
    finite maps of the model read what the objects of the code hold. *)
Definition inherited (name : string) : bool :=
  bool_decide (name ∈ ["constructor"; "hasOwnProperty"; "isPrototypeOf";
                       "propertyIsEnumerable"; "toLocaleString"; "toString";
                       "valueOf"; "__proto__"; "__defineGetter__";
                       "__defineSetter__"; "__lookupGetter__";
                       "__lookupSetter__"]).

(** [EventType | EventType[]]: the argument of the register operations.
    Symbols are left out: event names are strings. *)
Inductive EventArg :=
| One (e : string)
| Many (es : list string).

Definition isArray (ev : EventArg) : bool :=
  match ev with Many _ => true | One _ => false end.

(** [([] as EventType[]).concat(event)] *)
Definition concat (ev : EventArg) : list string :=
  match ev with One e => [e] | Many es => es end.

Inductive CallType := On | Once.

Inductive Order := Strict | Loose.

(** The four register operations. *)
Inductive Method := MOn | MOnOrderOf | MOnceOrderOf | MOnce.

(** A callback is a JavaScript function.  What it can do to the
    instance it is registered on is a sequence of calls of the
    instance's methods; its other effects are not observed.  Keys come
    from the clock ([randomSequentialId]), so a call that registers
    carries the key the clock gives it. *)
Inductive Call (F : Type) :=
| CallRegister (m : Method) (ev : EventArg) (f : option F) (k : string)
| CallRemove (k : string)
| CallReOn (k : string)
| CallDrop.
Arguments CallRegister {F}.
Arguments CallRemove {F}.
Arguments CallReOn {F}.
Arguments CallDrop {F}.

#[warnings="-register-all"]
Inductive Callback := Fn (body : list (Call Callback)).

Definition body (f : Callback) : list (Call Callback) :=
  match f with Fn b => b end.

(** [() => {}] *)
Definition noop : Callback := Fn [].

(** Per registered pattern string: [{ maxListeners, count }]. *)
Module Quota.
Record t := { maxListeners : option Z; count : Z }.
End Quota.

Section Model.

Context {Payload : Type}.

(** What a callback receives: the payload itself for a single
    event, the merged record of payloads for a train of events. *)
Inductive Arg :=
| Plain (p : Payload)
| Merged (m : gmap string Payload).

(** [CallbackObject].  [key] is optional because one register
    operation builds the object without it.  [order],
    [eventCount] and [matchCount] exist on trains only;
    [registered] and [sink] are read on trains only, an absent
    [sink] spreads like [{}], and an absent [called] is falsy. *)
Record CallbackObject := {
  event : string;
  cb : Callback;
  callable : bool;
  key : option string;
  callType : CallType;
  callsCount : nat;
  isTrainOfEvent : bool;
  eventCount : option nat;
  matchCount : option nat;
  order : option Order;
  registered : string;
  sink : gmap string Payload;
  called : bool
}.

Definition set_registered (r : string) (c : CallbackObject) : CallbackObject :=
  {| event := event c; cb := cb c; callable := callable c; key := key c;
     callType := callType c; callsCount := callsCount c;
     isTrainOfEvent := isTrainOfEvent c; eventCount := eventCount c;
     matchCount := matchCount c; order := order c;
     registered := r; sink := sink c; called := called c |}.

Definition set_sink (m : gmap string Payload) (c : CallbackObject) : CallbackObject :=
  {| event := event c; cb := cb c; callable := callable c; key := key c;
     callType := callType c; callsCount := callsCount c;
     isTrainOfEvent := isTrainOfEvent c; eventCount := eventCount c;
     matchCount := matchCount c; order := order c;
     registered := registered c; sink := m; called := called c |}.

Definition set_callsCount (n : nat) (c : CallbackObject) : CallbackObject :=
  {| event := event c; cb := cb c; callable := callable c; key := key c;
     callType := callType c; callsCount := n;
     isTrainOfEvent := isTrainOfEvent c; eventCount := eventCount c;
     matchCount := matchCount c; order := order c;
     registered := registered c; sink := sink c; called := called c |}.

Definition set_called (b : bool) (c : CallbackObject) : CallbackObject :=
  {| event := event c; cb := cb c; callable := callable c; key := key c;
     callType := callType c; callsCount := callsCount c;
     isTrainOfEvent := isTrainOfEvent c; eventCount := eventCount c;
     matchCount := matchCount c; order := order c;
     registered := registered c; sink := sink c; called := b |}.

(** The instance, with the part of the heap it reaches and a record
    of what it did.  Listener objects and arrays are shared by
    reference in the source ([callbacks] and [keys] hold the same
    objects; [push] changes an array in place while [filter] and
    [concat] make a new one), so both live in a store and are named
    by their index in it. *)
Record Hub := {
  name : option string;
  connected : bool;
  connectionId : string;
  connections : list string;
  callbacks : nat;
  keys : gmap string nat;
  maxListeners : option Z;
  events : gmap string Quota.t;
  objects : list CallbackObject;
  arrays : list (list nat);
  console : list string;
  calls : list (nat * Arg)
}.

(** The outcome of a method: it returns, or it throws an [Error]
    with a message; [NoResult] is the model running out of fuel (or
    reading a reference that is not in the store). *)
Inductive Outcome (A : Type) :=
| Returned (a : A) (h : Hub)
| Thrown (msg : string) (h : Hub)
| NoResult.
Arguments Returned {A}.
Arguments Thrown {A}.
Arguments NoResult {A}.

Definition M (A : Type) : Type := Hub → Outcome A.

Definition ret {A} (a : A) : M A := fun h => Returned a h.

Definition bind {A B} (m : M A) (k : A → M B) : M B :=
  fun h =>
    match m h with
    | Returned a h' => k a h'
    | Thrown msg h' => Thrown msg h'
    | NoResult => NoResult
    end.

(** The state an outcome leaves behind. *)
Definition final {A} (r : Outcome A) : option Hub :=
  match r with
  | Returned _ h | Thrown _ h => Some h
  | NoResult => None
  end.

(** *** Access to the store *)

(** The array [this.callbacks] refers to. *)
Definition registry (h : Hub) : list nat :=
  default [] (arrays h !! callbacks h).

(** [console.warn(msg)] *)
Definition warn (msg : string) (h : Hub) : Hub :=
  {| name := name h; connected := connected h;
     connectionId := connectionId h; connections := connections h;
     callbacks := callbacks h; keys := keys h;
     maxListeners := maxListeners h; events := events h;
     objects := objects h; arrays := arrays h;
     console := console h ++ [msg]; calls := calls h |}.

(** A field of the listener object [o] is assigned. *)
Definition modify (o : nat) (f : CallbackObject → CallbackObject) (h : Hub) : Hub :=
  {| name := name h; connected := connected h;
     connectionId := connectionId h; connections := connections h;
     callbacks := callbacks h; keys := keys h;
     maxListeners := maxListeners h; events := events h;
     objects := alter f o (objects h); arrays := arrays h;
     console := console h; calls := calls h |}.

(** The callback of the listener object [o] is entered with [a]. *)
Definition enter (o : nat) (a : Arg) (h : Hub) : Hub :=
  {| name := name h; connected := connected h;
     connectionId := connectionId h; connections := connections h;
     callbacks := callbacks h; keys := keys h;
     maxListeners := maxListeners h; events := events h;
     objects := objects h; arrays := arrays h;
     console := console h; calls := calls h ++ [(o, a)] |}.

(** [this.callbacks = l], for a new array [l]. *)
Definition assign_callbacks (l : list nat) (h : Hub) : Hub :=
  {| name := name h; connected := connected h;
     connectionId := connectionId h; connections := connections h;
     callbacks := length (arrays h); keys := keys h;
     maxListeners := maxListeners h; events := events h;
     objects := objects h; arrays := arrays h ++ [l];
     console := console h; calls := calls h |}.

Definition set_connected (b : bool) (h : Hub) : Hub :=
  {| name := name h; connected := b;
     connectionId := connectionId h; connections := connections h;
     callbacks := callbacks h; keys := keys h;
     maxListeners := maxListeners h; events := events h;
     objects := objects h; arrays := arrays h;
     console := console h; calls := calls h |}.

Definition set_maxListeners (v : option Z) (h : Hub) : Hub :=
  {| name := name h; connected := connected h;
     connectionId := connectionId h; connections := connections h;
     callbacks := callbacks h; keys := keys h;
     maxListeners := v; events := events h;
     objects := objects h; arrays := arrays h;
     console := console h; calls := calls h |}.

Definition set_events (ev : gmap string Quota.t) (h : Hub) : Hub :=
  {| name := name h; connected := connected h;
     connectionId := connectionId h; connections := connections h;
     callbacks := callbacks h; keys := keys h;
     maxListeners := maxListeners h; events := ev;
     objects := objects h; arrays := arrays h;
     console := console h; calls := calls h |}.

Definition set_keys (ks : gmap string nat) (h : Hub) : Hub :=
  {| name := name h; connected := connected h;
     connectionId := connectionId h; connections := connections h;
     callbacks := callbacks h; keys := ks;
     maxListeners := maxListeners h; events := events h;
     objects := objects h; arrays := arrays h;
     console := console h; calls := calls h |}.

(** [this.callbacks.push(cbObj); this.keys[key] = cbObj] for a
    listener object [c] made just before: the object is allocated,
    appended in place to the current array and entered under [k]. *)
Definition install (c : CallbackObject) (k : string) (h : Hub) : Hub :=
  {| name := name h; connected := connected h;
     connectionId := connectionId h; connections := connections h;
     callbacks := callbacks h;
     keys := <[k := length (objects h)]> (keys h);
     maxListeners := maxListeners h; events := events h;
     objects := objects h ++ [c];
     arrays := alter (fun l => l ++ [length (objects h)]) (callbacks h) (arrays h);
     console := console h; calls := calls h |}.

(** *** The constructor *)

(** [new LocalSocket(name)]; [id] is what [randomSequentialId]
    gives for [connectionId].  The store starts with the one empty
    array of [this.callbacks]. *)
Definition create (nm : option string) (id : string) : Hub :=
  {| name := match nm with
             | Some n => if Str.truthy n then Some n else None
             | None => None
             end;
     connected := true;
     connectionId := id; connections := [];
     callbacks := 0%nat; keys := ∅;
     maxListeners := None; events := ∅;
     objects := []; arrays := [[]];
     console := []; calls := [] |}.

(** *** Ceilings *)

Definition max_listener_limit : string :=
  "[LocalSocket]: Max listener limit reached".

Definition max_listener_limit_for (e : string) : string :=
  "[LocalSocket]: Max listener limit reached for " +:+ e.

Definition must_be_greater_than_zero : string :=
  "[LocalSocket]: Max listeners must be greater than zero".

(** Lines 87-95 of [validate]. *)
Definition check_global : M unit :=
  fun h =>
    if Num.truthy (maxListeners h) then
      let listnersCount := Num.of_nat (length (registry h)) in
      if Num.ge listnersCount (maxListeners h) then
        Thrown max_listener_limit h
      else if Num.gt listnersCount (Some 5)
              && Num.lt (Num.sub (maxListeners h) listnersCount) (Some 5) then
        Returned () (warn "[LocalSocket]: listeners approaching limit" h)
      else Returned () h
    else Returned () h.

(** The body of the [forEach] of [validate], lines 98-113.  The
    count is read from [this.events.count], the entry of the event
    named [count]: [undefined] or an object, never a number. *)
Definition check_event (e : string) : M unit :=
  fun h =>
    match events h !! e with
    | Some q =>
        if Num.truthy (Quota.maxListeners q) then
          let listnersCount : Num.t :=
            match events h !! "count" with
            | Some _ => Num.NaN
            | None => Num.NaN
            end in
          if Num.ge listnersCount (Quota.maxListeners q) then
            Thrown (max_listener_limit_for e) h
          else if Num.gt listnersCount (Some 5)
                  && Num.lt (Num.sub (Quota.maxListeners q) listnersCount) (Some 5) then
            Returned () (warn ("[LocalSocket]: isteners approaching limit for " +:+ e) h)
          else Returned () h
        else Returned () h
    | None => Returned () h
    end.

Fixpoint forEach (f : string → M unit) (l : list string) : M unit :=
  match l with
  | [] => ret ()
  | e :: l' => bind (f e) (fun _ => forEach f l')
  end.

Definition validate (ev : EventArg) : M bool :=
  fun h =>
    let h1 := if connected h then h
              else warn "[LocalSocket]: Instance is disconnected" h in
    bind check_global (fun _ =>
    bind (forEach check_event (concat ev)) (fun _ =>
    ret true)) h1.

(** [limitConnections(value)], for a [value] that is an integer
    printed in plain decimal notation, which [parseInt(String(value))]
    gives back: the integers of absolute value below [10^21], the only
    ones [String] prints with all their digits. *)
Definition limitConnections (value : Z) : M unit :=
  fun h =>
    if value =? 0 then Thrown must_be_greater_than_zero h
    else Returned () (set_maxListeners (Some value) h).

(** [setEventMaxListener(eventName, value)], for a string and an
    integer. *)
Definition setEventMaxListener (eventName : string) (value : Z) : M unit :=
  fun h =>
    if value =? 0 then Thrown must_be_greater_than_zero h
    else
      match events h !! eventName with
      | None => Returned () (warn "[LocalSocket]: evemt was never registered" h)
      | Some q =>
          Returned ()
            (set_events
               (<[eventName := {| Quota.maxListeners := Some value;
                                  Quota.count := Quota.count q |}]> (events h)) h)
      end.

(** *** Registration *)

(** [cbObj.event] *)
Definition pattern (ev : EventArg) : string :=
  match ev with
  | Many es => Str.join " " (map Str.trim es)
  | One e => e
  end.

(** [stringigiedEvent] *)
Definition stringified (ev : EventArg) : string :=
  Str.join " " (concat ev).

(** The object literal [cbObj] of the register operations, which
    differ in [key] (present or not), [callType] and [order]. *)
Definition listener (ev : EventArg) (f : option Callback) (k : option string)
    (ct : CallType) (ord : Order) : CallbackObject :=
  let isList := isArray ev in
  {| event := pattern ev;
     cb := default noop f;
     callable := true;
     key := k;
     callType := ct;
     callsCount := 0;
     isTrainOfEvent := isList;
     eventCount := if isList then Some (length (concat ev)) else None;
     matchCount := if isList then Some 0%nat else None;
     order := if isList then Some ord else None;
     registered := "";
     sink := ∅;
     called := false |}.

(** The quota entry of [s] is counted up, or made with count 1. *)
Definition count_event (s : string) (h : Hub) : Hub :=
  match events h !! s with
  | Some q =>
      set_events (<[s := {| Quota.maxListeners := Quota.maxListeners q;
                            Quota.count := Quota.count q + 1 |}]> (events h)) h
  | None =>
      set_events (<[s := {| Quota.maxListeners := None;
                            Quota.count := 1 |}]> (events h)) h
  end.

(** In each of the four, [k] is the key [randomSequentialId] makes
    at this call and [f] the callback, if a function was passed. *)
Definition on (ev : EventArg) (f : option Callback) (k : string) : M (option string) :=
  bind (validate ev) (fun validState =>
    if negb validState then ret None
    else fun h =>
      Returned (Some k)
        (count_event (stringified ev)
           (install (listener ev f (Some k) On Loose) k h))).

Definition onOrderOf (ev : EventArg) (f : option Callback) (k : string) : M (option string) :=
  bind (validate ev) (fun validState =>
    if negb validState then ret None
    else fun h =>
      Returned (Some k)
        (count_event (stringified ev)
           (install (listener ev f None On Strict) k h))).

Definition onceOrderOf (ev : EventArg) (f : option Callback) (k : string) : M (option string) :=
  bind (validate ev) (fun validState =>
    if negb validState then ret None
    else fun h =>
      Returned (Some k)
        (count_event (stringified ev)
           (install (listener ev f (Some k) Once Strict) k h))).

Definition once (ev : EventArg) (f : option Callback) (k : string) : M (option string) :=
  bind (validate ev) (fun validState =>
    if negb validState then ret None
    else fun h =>
      Returned (Some k)
        (count_event (stringified ev)
           (install (listener ev f (Some k) Once Loose) k h))).

Definition register (m : Method) : EventArg → option Callback → string → M (option string) :=
  match m with
  | MOn => on
  | MOnOrderOf => onOrderOf
  | MOnceOrderOf => onceOrderOf
  | MOnce => once
  end.

(** *** Removal, reconnection, reset

    [this.keys[key]] and [this.events[key]] are read in the finite
    maps, which is what the code reads for every key that is not
    [inherited]. *)

Definition remove (k : string) : M unit :=
  fun h =>
    if negb (Str.truthy k) then Returned () h
    else
      match keys h !! k with
      | None => Returned () h
      | Some _ =>
          let h1 := set_events (delete k (events h)) h in
          Returned ()
            (assign_callbacks
               (filter (fun o => (objects h1 !! o) ≫= key ≠ Some k) (registry h1))
               h1)
      end.

Definition off (k : string) : M unit := remove k.

Definition reOn (k : string) : M unit :=
  fun h =>
    if negb (Str.truthy k) then Returned () h
    else
      match keys h !! k with
      | None => Returned () h
      | Some o => Returned () (assign_callbacks (registry h ++ [o]) h)
      end.

Definition drop : M unit :=
  fun h =>
    Returned () (set_events ∅ (assign_callbacks [] (set_keys ∅ h))).

(** *** Callbacks *)

Definition perform (c : Call Callback) : M unit :=
  match c with
  | CallRegister m ev f k => bind (register m ev f k) (fun _ => ret ())
  | CallRemove k => remove k
  | CallReOn k => reOn k
  | CallDrop => drop
  end.

Fixpoint run (b : list (Call Callback)) : M unit :=
  match b with
  | [] => ret ()
  | c :: b' => bind (perform c) (fun _ => run b')
  end.

(** *** Announce *)

(** [eventMatch], lines 351-353. *)
Definition eventMatch (c : CallbackObject) (e : string) : bool :=
  if negb (isTrainOfEvent c) then String.eqb (event c) e
  else String.eqb (Str.trim (registered c +:+ " " +:+ e)) (event c).

Definition is_strict (ord : option Order) : bool :=
  match ord with Some Strict => true | _ => false end.

(** Lines 355-368: a strict train whose run the event breaks. *)
Definition invalidate (m : bool) (e : string) (c : CallbackObject) : CallbackObject :=
  if isTrainOfEvent c && (is_strict (order c) && negb m) then
    if Str.includes (event c) (Str.trim (registered c +:+ " " +:+ e)) then c
    else set_registered "" (set_sink ∅ c)
  else c.

(** The condition of lines 370-375 under which [c.cb] is called. *)
Definition fires (m : bool) (c : CallbackObject) : bool :=
  m && callable c &&
  match callType c with
  | On => true
  | Once => negb (called c)
  end.

(** What [c.cb] is called with, lines 372 and 378. *)
Definition argument (e : string) (args : Payload) (c : CallbackObject) : Arg :=
  if isTrainOfEvent c then Merged (<[e := args]> (sink c)) else Plain args.

(** The assignments before the call (lines 376-377, [once]). *)
Definition before_call (c : CallbackObject) : CallbackObject :=
  match callType c with
  | On => c
  | Once => set_callsCount (S (callsCount c)) (set_called true c)
  end.

(** The assignments after the call (lines 373-374, [on]). *)
Definition after_call (c : CallbackObject) : CallbackObject :=
  match callType c with
  | On => set_sink ∅ (set_callsCount (S (callsCount c)) c)
  | Once => c
  end.

(** Lines 382-398: the progress of a train. *)
Definition advance (m : bool) (e : string) (args : Payload) (c : CallbackObject) : CallbackObject :=
  if negb m && isTrainOfEvent c then
    let c1 := if Str.includes (event c) e
              then set_sink (<[e := args]> (sink c)) c else c in
    let currentRegister := registered c1 in
    let firstRegister := negb (Str.truthy (registered c1)) in
    if firstRegister then
      if Str.startsWith (event c1) e
      then set_registered (Str.trim e) c1 else c1
    else
      if Str.includes (event c1) (currentRegister +:+ " " +:+ e)
      then set_registered (currentRegister +:+ " " +:+ Str.trim e) c1 else c1
  else if isTrainOfEvent c then set_registered "" (set_sink ∅ c)
  else c.

(** The body of the [for] loop for the listener object [o]. *)
Definition visit (o : nat) (e : string) (args : Payload) : M unit :=
  fun h =>
    match objects h !! o with
    | None => NoResult
    | Some c =>
        let m := eventMatch c e in
        let c1 := invalidate m e c in
        let h1 := modify o (invalidate m e) h in
        let called_back :=
          if fires m c1 then
            bind (fun h => Returned () (enter o (argument e args c1) (modify o before_call h)))
                 (fun _ => bind (run (body (cb c1)))
                 (fun _ => fun h => Returned () (modify o after_call h)))
          else ret () in
        bind called_back
          (fun _ => fun h => Returned () (modify o (advance m e args) h)) h1
    end.

(** [for (const c of this.callbacks)]: the iterator holds the array
    [arr] that [this.callbacks] referred to when the loop began and
    reads it by index, so it sees what is pushed to that array
    meanwhile and nothing of an array assigned meanwhile.  The
    result lists the listener objects the loop evaluated. *)
Fixpoint iterate (fuel : nat) (arr i : nat) (e : string) (args : Payload) : M (list nat) :=
  fun h =>
    match fuel with
    | O => NoResult
    | S fuel' =>
        match arrays h !! arr ≫= (fun l => l !! i) with
        | None => Returned [] h
        | Some o =>
            bind (visit o e args) (fun _ =>
            bind (iterate fuel' arr (S i) e args) (fun os =>
            ret (o :: os))) h
        end
    end.

Definition emit (fuel : nat) (e : string) (args : Payload) : M unit :=
  fun h =>
    if negb (connected h) then
      Returned ()
        (warn ("[LocalSocket]: Discarding..." +:+ e +:+ ", "
               +:+ default "LocalSocket" (name h)
               +:+ " Instance is disconnected") h)
    else bind (iterate fuel (callbacks h) 0 e args) (fun _ => ret ()) h.

(** *** Lifecycle *)

(** The payload [{ connectionId, connections, connected }]. *)
Context (lifecycle : string → list string → bool → Payload).


Definition disconnect (fuel : nat) : M unit :=
  fun h =>
    if negb (connected h) then Returned () h
    else
      let h1 := set_connected false h in
      emit fuel "disconnect"
        (lifecycle (connectionId h1) (connections h1) (connected h1)) h1.

End Model.

Arguments Arg : clear implicits.
Arguments CallbackObject : clear implicits.
Arguments Hub : clear implicits.
Arguments Outcome : clear implicits.
Arguments M : clear implicits.
Arguments Returned {Payload A}.
Arguments Thrown {Payload A}.
Arguments NoResult {Payload A}.

End LocalSocket.

Import LocalSocket.

Local Close Scope Z_scope.

(** ** Vocabulary of the properties *)

(** An event name as callers write them: a non-empty word. *)
Definition word (s : string) : Prop := s ≠ "" ∧ Str.no_space s = true.

Section Vocabulary.

Context {Payload : Type}.

Implicit Types (c : CallbackObject Payload) (h : Hub Payload).

(** What one announce of [e] with [args] leaves of the listener
    object [c], and what its callback is called with, if it is
    called: the assignments of the loop body of [emit] on [c]. *)
Definition step (e : string) (args : Payload) c : CallbackObject Payload :=
  let m := eventMatch c e in
  let c1 := invalidate m e c in
  advance m e args (if fires m c1 then after_call (before_call c1) else c1).

Definition shot (e : string) (args : Payload) c : option (Arg Payload) :=
  let m := eventMatch c e in
  let c1 := invalidate m e c in
  if fires m c1 then Some (argument e args c1) else None.

(** The fields of a listener object that no announce assigns. *)
Definition static c c' : Prop :=
  event c' = event c ∧ cb c' = cb c ∧ callable c' = callable c ∧
  key c' = key c ∧ callType c' = callType c ∧
  isTrainOfEvent c' = isTrainOfEvent c ∧ order c' = order c.

(** A callback that does not call the instance. *)
Definition quiet c : Prop := body (cb c) = [].

Definition inert h : Prop := Forall quiet (objects h).

Definition registers (x : Call Callback) : bool :=
  match x with CallRegister _ _ _ _ => true | _ => false end.

(** A callback that registers nothing: it may remove, reconnect
    and drop. *)
Definition tame c : Prop := Forall (fun x => registers x = false) (body (cb c)).

Definition docile h : Prop := Forall tame (objects h).

(** The listener objects that [emit] evaluates, in order, when it is
    called on a connected instance. *)
Definition evaluated (fuel : nat) (e : string) (args : Payload) h : option (list nat) :=
  match iterate fuel (callbacks h) 0 e args h with
  | Returned os _ => Some os
  | _ => None
  end.

(** The references of the instance are in its store. *)
Definition well_formed h : Prop :=
  callbacks h < length (arrays h) ∧
  Forall (fun o => o < length (objects h)) (registry h).

(** The arguments the callback of listener object [o] was called
    with so far, in order. *)
Definition invocations (o : nat) h : list (Arg Payload) :=
  (filter (fun x => x.1 = o) (calls h)).*2.

(** The instance with other listener objects and calls. *)
Definition put (objs : list (CallbackObject Payload))
    (cs : list (nat * Arg Payload)) h : Hub Payload :=
  {| name := name h; connected := connected h;
     connectionId := connectionId h; connections := connections h;
     callbacks := callbacks h; keys := keys h;
     maxListeners := maxListeners h; events := events h;
     objects := objs; arrays := arrays h;
     console := console h; calls := cs |}.

(** One pass over the listener objects [l] when no callback calls
    the instance: what it makes of the listener objects and which
    calls it adds. *)
Definition sweep1 (e : string) (args : Payload)
    (st : list (CallbackObject Payload) * list (nat * Arg Payload)) (o : nat)
    : list (CallbackObject Payload) * list (nat * Arg Payload) :=
  match st.1 !! o with
  | Some c =>
      (alter (step e args) o st.1,
       st.2 ++ option_list (pair o <$> shot e args c))
  | None => st
  end.

Definition sweep (e : string) (args : Payload) (l : list nat)
    (st : list (CallbackObject Payload) * list (nat * Arg Payload))
    : list (CallbackObject Payload) * list (nat * Arg Payload) :=
  foldl (sweep1 e args) st l.

(** A connected instance whose callbacks are quiet and in whose
    registry the listener object [o] occurs once, in state [c]. *)
Definition listening (o : nat) c h : Prop :=
  connected h = true ∧ inert h ∧ well_formed h ∧
  (∃ l1 l2, registry h = l1 ++ o :: l2 ∧ (o ∉ l1) ∧ (o ∉ l2)) ∧
  objects h !! o = Some c.

(** The instance after the warnings [ms]. *)
Definition say (ms : list string) h : Hub Payload :=
  {| name := name h; connected := connected h;
     connectionId := connectionId h; connections := connections h;
     callbacks := callbacks h; keys := keys h;
     maxListeners := maxListeners h; events := events h;
     objects := objects h; arrays := arrays h;
     console := console h ++ ms; calls := calls h |}.

(** The global ceiling is reached (lines 87-91 of [validate]). *)
Definition full h : bool :=
  Num.truthy (maxListeners h) &&
  Num.ge (Num.of_nat (length (registry h))) (maxListeners h).

(** What [validate] warns of first (lines 82-86). *)
Definition disconnected_warning h : list string :=
  if connected h then [] else ["[LocalSocket]: Instance is disconnected"].

(** The listener object a register operation makes. *)
Definition listener_of (m : Method) (ev : EventArg) (f : option Callback)
    (k : string) : CallbackObject Payload :=
  match m with
  | MOn => listener ev f (Some k) On Loose
  | MOnOrderOf => listener ev f None On Strict
  | MOnceOrderOf => listener ev f (Some k) Once Strict
  | MOnce => listener ev f (Some k) Once Loose
  end.

(** Announces in a row. *)
Fixpoint announce_all (fuel : nat) (l : list (string * Payload)) : M Payload unit :=
  match l with
  | [] => ret ()
  | (e, args) :: l' => bind (emit fuel e args) (fun _ => announce_all fuel l')
  end.

(** A train of events on the names [pat] that has the names [ws]
    registered. *)
Definition train_state (ord : Order) (pat ws : list string) c : Prop :=
  isTrainOfEvent c = true ∧ order c = Some ord ∧
  event c = Str.join " " pat ∧ registered c = Str.join " " ws.

(** The listener object [o] was called once more in [h'] than in
    [h], with a record that has the payloads of [A], [B] and [C]. *)
Definition called_once_with (o : nat) h h'
    (A B C : string) (pa pb pc : Payload) : Prop :=
  ∃ m, invocations o h' = invocations o h ++ [Merged m] ∧
       m !! A = Some pa ∧ m !! B = Some pb ∧ m !! C = Some pc.

End Vocabulary.

(** ** Concrete instances *)

(** A new instance with numbers for payloads. *)
Definition fresh : Hub nat := create None "c0".

(** The instance an outcome leaves. *)
Definition after {A} (r : Outcome nat A) : Hub nat := default fresh (final r).

(** A strict and a loose train on [a], [b], [c], and each after [a]
    was announced. *)
Definition strict_abc : Hub nat :=
  after (onOrderOf (Many ["a"; "b"; "c"]) None "k1" fresh).

Definition strict_abc_a : Hub nat := after (emit 2 "a" 1 strict_abc).

Definition loose_abc : Hub nat :=
  after (on (Many ["a"; "b"; "c"]) None "k1" fresh).

Definition loose_abc_a : Hub nat := after (emit 2 "a" 1 loose_abc).

(** A new instance after [disconnect()]. *)
Definition unplugged : Hub nat := after (disconnect (fun _ _ _ => 0) 1 fresh).

(** A listener on [a] whose callback registers a listener on [a]. *)
Definition recruiter : Hub nat :=
  after (on (One "a") (Some (Fn [CallRegister MOn (One "a") None "k2"])) "k1" fresh).

(** Two listeners on [a]; the callback of the first removes the
    second. *)
Definition remover : Hub nat :=
  after (on (One "a") None "k2"
           (after (on (One "a") (Some (Fn [CallRemove "k2"])) "k1" fresh))).

(** A listener on [a] and a ceiling of two listeners for [a]. *)
Definition capped_a : Hub nat :=
  after (setEventMaxListener "a" 2 (after (on (One "a") None "k1" fresh))).

(** The listener object of both after [a]. *)
Definition abc_after_a (m : Method) : CallbackObject nat :=
  set_registered "a"
    (set_sink {["a" := 1]} (listener_of m (Many ["a"; "b"; "c"]) None "k1")).

(** ** Vocabulary of further properties *)

Section MoreVocabulary.

Context {Payload : Type}.

Implicit Types (c : CallbackObject Payload) (h : Hub Payload).

(** What a row of announces leaves of a listener object, and what its
    callback is called with along the row. *)
Fixpoint steps (l : list (string * Payload)) c : CallbackObject Payload :=
  match l with
  | [] => c
  | (e, args) :: l' => steps l' (step e args c)
  end.

Fixpoint shots (l : list (string * Payload)) c : list (Arg Payload) :=
  match l with
  | [] => []
  | (e, args) :: l' => option_list (shot e args c) ++ shots l' (step e args c)
  end.

(** The record a train gathers from the announces [l] on top of [m]:
    a later payload of a name replaces an earlier one. *)
Definition merge (m : gmap string Payload) (l : list (string * Payload))
    : gmap string Payload :=
  foldl (fun m x => <[x.1 := x.2]> m) m l.

(** A word that does not occur in the pattern string of [pat]. *)
Definition foreign (pat : list string) (e : string) : Prop :=
  word e ∧ Str.includes (Str.join " " pat) e = false.

(** A row of announces given as the announces of a pattern's names,
    each after some other announces. *)
Definition with_strangers
    (segs : list (list (string * Payload) * (string * Payload)))
    : list (string * Payload) :=
  flat_map (fun s => s.1 ++ [s.2]) segs.

(** The names [pat] stand in [l] in a row. *)
Definition run_of (pat l : list string) : Prop := ∃ l1 l2, l = l1 ++ pat ++ l2.

(** How often the listener object [o] stands in the registry. *)
Definition times (o : nat) h : nat :=
  length (filter (fun o' => o' = o) (registry h)).

(** A listener on a single event [e]. *)
Definition single_state (e : string) c : Prop :=
  isTrainOfEvent c = false ∧ event c = e.


(** The warning of lines 92-94 of [validate]. *)
Definition approaching h : list string :=
  if Num.truthy (maxListeners h)
     && (Num.gt (Num.of_nat (length (registry h))) (Some 5%Z)
         && Num.lt (Num.sub (maxListeners h) (Num.of_nat (length (registry h))))
                   (Some 5%Z))
  then ["[LocalSocket]: listeners approaching limit"] else [].

(** The warning of [emit] on a disconnected instance. *)
Definition discarding (e : string) h : string :=
  "[LocalSocket]: Discarding..." +:+ e +:+ ", "
  +:+ default "LocalSocket" (name h) +:+ " Instance is disconnected".

(** [segs] is one round of the pattern [pat]: its names in order, each
    after announces of names foreign to the pattern, of which a strict
    train bears none. *)
Definition round_of (ord : Order) (pat : list string)
    (segs : list (list (string * Payload) * (string * Payload))) : Prop :=
  (segs.*2).*1 = pat ∧
  Forall (fun s => Forall (fun x => foreign pat x.1) s.1) segs ∧
  (ord = Strict → Forall (fun s => s.1 = []) segs).

End MoreVocabulary.

(** ** Further concrete instances *)

(** A new instance with one listener, made by the register operation
    [m] for [ev] under the key [k1]. *)
Definition with_listener (m : Method) (ev : EventArg) : Hub nat :=
  after (register m ev None "k1" fresh).

(** A listener on [a] that was reconnected while it was registered. *)
Definition doubled : Hub nat := after (reOn "k1" (with_listener MOn (One "a"))).

(** Two listeners on [a] under a ceiling of two; the callback of the
    first registers a listener. *)
Definition brimful : Hub nat :=
  after (on (One "a") None "k2"
    (after (on (One "a") (Some (Fn [CallRegister MOn (One "b") None "k3"])) "k1"
       (after (limitConnections 2 fresh))))).




(** One round of [a], [b], [c] with the payloads [x], [y], [z], and
    one with the stranger [q] before [b]. *)
Definition round_abc (x y z : nat) : list (list (string * nat) * (string * nat)) :=
  [([], ("a", x)); ([], ("b", y)); ([], ("c", z))].

Definition round_abc_stranger (x y z : nat)
    : list (list (string * nat) * (string * nat)) :=
  [([], ("a", x)); ([("q", 0)], ("b", y)); ([], ("c", z))].

(** ** Facts about strings *)

Section StrFacts.

Implicit Types s t p r : string.

Lemma app_cons a s t : String a s +:+ t = String a (s +:+ t).
Proof. reflexivity. Qed.

Lemma app_empty_l s : "" +:+ s = s.
Proof. reflexivity. Qed.

Lemma app_empty_r s : s +:+ "" = s.
Proof. induction s as [|a s IH]; [done|]. by rewrite app_cons, IH. Qed.

Lemma app_assoc' s t r : (s +:+ t) +:+ r = s +:+ t +:+ r.
Proof. induction s as [|a s IH]; [done|]. by rewrite !app_cons, IH. Qed.

Lemma app_length s t :
  String.length (s +:+ t) = (String.length s + String.length t)%nat.
Proof. induction s as [|a s IH]; [done|]. rewrite app_cons. simpl. by rewrite IH. Qed.

Lemma startsWith_spec s p : Str.startsWith s p = true ↔ ∃ r, s = p +:+ r.
Proof.
  revert s. induction p as [|a p IH]; intros s.
  - split; [intros _; by exists s|by destruct s].
  - destruct s as [|b s]; simpl.
    + split; [done|]. by intros [r Hr].
    + rewrite andb_true_iff, Ascii.eqb_eq, IH. split.
      * intros [-> [r ->]]. by exists r.
      * intros [r Hr]. rewrite app_cons in Hr. injection Hr as -> ->. eauto.
Qed.

Lemma includes_nil p : Str.includes "" p = Str.startsWith "" p || false.
Proof. reflexivity. Qed.

Lemma includes_cons a s p :
  Str.includes (String a s) p = Str.startsWith (String a s) p || Str.includes s p.
Proof. reflexivity. Qed.

Lemma includes_spec s p : Str.includes s p = true ↔ ∃ l r, s = l +:+ p +:+ r.
Proof.
  induction s as [|a s IH].
  - rewrite includes_nil, orb_false_r, startsWith_spec. split.
    + intros [r Hr]. by exists "", r.
    + intros [l [r Hr]]. destruct l; [by exists r|done].
  - rewrite includes_cons, orb_true_iff, startsWith_spec, IH. split.
    + intros [[r Hr]|[l [r Hr]]]; [by exists "", r|].
      exists (String a l), r. by rewrite app_cons, Hr.
    + intros [[|b l] [r Hr]]; [left; by exists r|right].
      rewrite app_cons in Hr. injection Hr as -> ->. eauto.
Qed.

Lemma startsWith_includes s p : Str.startsWith s p = true → Str.includes s p = true.
Proof. destruct s; [rewrite includes_nil|rewrite includes_cons]; by intros ->. Qed.

Lemma includes_app_l s l p : Str.includes s (l +:+ p) = true → Str.includes s p = true.
Proof.
  rewrite !includes_spec. intros (l' & r & ->).
  exists (l' +:+ l), r. by rewrite !app_assoc'.
Qed.

(** *** Trimming *)

Lemma trimStart_cons a s :
  Str.trimStart (String a s) =
  if Str.is_white_space a then Str.trimStart s else String a s.
Proof. reflexivity. Qed.

Lemma trimEnd_cons a s :
  Str.trimEnd (String a s) =
  match Str.trimEnd s with
  | "" => if Str.is_white_space a then "" else String a ""
  | t => String a t
  end.
Proof. reflexivity. Qed.

Lemma no_space_cons a s :
  Str.no_space (String a s) = negb (Str.is_white_space a) && Str.no_space s.
Proof. reflexivity. Qed.

Lemma no_space_app s t :
  Str.no_space (s +:+ t) = Str.no_space s && Str.no_space t.
Proof.
  induction s as [|a s IH]; [done|].
  by rewrite app_cons, !no_space_cons, IH, andb_assoc.
Qed.

Lemma trimStart_app s t :
  s ≠ "" → Str.trimStart s = s → Str.trimStart (s +:+ t) = s +:+ t.
Proof.
  destruct s as [|a s]; [done|]. intros _.
  rewrite app_cons, !trimStart_cons.
  destruct (Str.is_white_space a) eqn:Ha; [|done].
  intros Hs. assert (Hlen : (String.length (Str.trimStart s) ≤ String.length s)%nat).
  { clear. induction s as [|b s IH]; [done|]. rewrite trimStart_cons.
    destruct (Str.is_white_space b); simpl; lia. }
  rewrite Hs in Hlen. simpl in Hlen. lia.
Qed.

Lemma trimEnd_app s t :
  t ≠ "" → Str.trimEnd t = t → Str.trimEnd (s +:+ t) = s +:+ t.
Proof.
  intros Ht Het. induction s as [|a s IH]; [done|].
  rewrite app_cons, trimEnd_cons, IH.
  destruct (s +:+ t) eqn:E; [|done].
  destruct s; [|done]. by rewrite app_empty_l in E.
Qed.

Lemma trimStart_suffix s t :
  t ≠ "" → Str.trimStart t = t → ∃ l, Str.trimStart (s +:+ t) = l +:+ t.
Proof.
  intros Ht Hst. induction s as [|a s [l IH]]; [by exists ""|].
  rewrite app_cons, trimStart_cons.
  destruct (Str.is_white_space a); [by exists l|]. by exists (String a s).
Qed.

Lemma word_nonempty s : word s → s ≠ "".
Proof. by intros [? _]. Qed.

Lemma word_trimStart s : word s → Str.trimStart s = s.
Proof.
  intros [Hne Hs]. destruct s as [|a s]; [done|].
  rewrite no_space_cons, andb_true_iff, negb_true_iff in Hs.
  rewrite trimStart_cons. by destruct Hs as [-> _].
Qed.

Lemma no_space_trimEnd s : Str.no_space s = true → Str.trimEnd s = s.
Proof.
  induction s as [|a s IH]; [done|].
  rewrite no_space_cons, andb_true_iff, negb_true_iff. intros [Ha Hs].
  rewrite trimEnd_cons, IH, Ha by done. by destruct s.
Qed.

Lemma word_trimEnd s : word s → Str.trimEnd s = s.
Proof. intros [_ Hs]. by apply no_space_trimEnd. Qed.

Lemma word_trim s : word s → Str.trim s = s.
Proof. intros Hs. unfold Str.trim. by rewrite word_trimStart, word_trimEnd. Qed.

(** Whatever stands before it, a word survives trimming. *)
Lemma trim_app_word s t : word t → ∃ l, Str.trim (s +:+ t) = l +:+ t.
Proof.
  intros Ht. destruct (trimStart_suffix s t) as [l Hl];
    [by apply word_nonempty|by apply word_trimStart|].
  exists l. unfold Str.trim. rewrite Hl.
  apply trimEnd_app; [by apply word_nonempty|by apply word_trimEnd].
Qed.

(** *** Joining words *)

Lemma join_nil : Str.join " " [] = "".
Proof. reflexivity. Qed.

Lemma join_singleton s : Str.join " " [s] = s.
Proof. reflexivity. Qed.

Lemma join_cons s t l :
  Str.join " " (s :: t :: l) = s +:+ " " +:+ Str.join " " (t :: l).
Proof. reflexivity. Qed.

Lemma join_app l1 l2 :
  l1 ≠ [] → l2 ≠ [] →
  Str.join " " (l1 ++ l2) = Str.join " " l1 +:+ " " +:+ Str.join " " l2.
Proof.
  intros H1 H2. induction l1 as [|s [|t l1] IH]; [done| |].
  - destruct l2 as [|u l2]; [done|]. reflexivity.
  - change ((s :: t :: l1) ++ l2) with (s :: t :: (l1 ++ l2)).
    rewrite !join_cons, !app_assoc'. by rewrite <- IH.
Qed.

Lemma join_snoc l s :
  l ≠ [] → Str.join " " (l ++ [s]) = Str.join " " l +:+ " " +:+ s.
Proof. intros Hl. by rewrite join_app. Qed.

Lemma join_nonempty l : l ≠ [] → Forall word l → Str.join " " l ≠ "".
Proof.
  destruct l as [|s [|t l]]; [done| |]; intros _ Hl.
  - apply Forall_cons in Hl as [Hs _]. by apply word_nonempty.
  - apply Forall_cons in Hl as [Hs _]. rewrite join_cons.
    destruct s; [by destruct Hs|done].
Qed.

Lemma join_trimStart l : Forall word l → Str.trimStart (Str.join " " l) = Str.join " " l.
Proof.
  destruct l as [|s [|t l]]; [done| |]; intros Hl;
    apply Forall_cons in Hl as [Hs _].
  - by apply word_trimStart.
  - rewrite join_cons.
    apply trimStart_app; [by apply word_nonempty|by apply word_trimStart].
Qed.

Lemma trim_join_snoc l s :
  Forall word l → word s →
  Str.trim (Str.join " " l +:+ " " +:+ s) = Str.join " " (l ++ [s]).
Proof.
  intros Hl Hs. destruct (decide (l = [])) as [->|Hne].
  - rewrite join_nil, app_empty_l. unfold Str.trim.
    change (" " +:+ s) with (String " " s).
    rewrite trimStart_cons. simpl Str.is_white_space. cbv iota.
    by rewrite word_trimStart, word_trimEnd.
  - rewrite join_snoc by done. unfold Str.trim.
    rewrite trimStart_app;
      [|by apply join_nonempty|by apply join_trimStart].
    rewrite <- app_assoc'.
    rewrite trimEnd_app; [done|by apply word_nonempty|by apply word_trimEnd].
Qed.

(** Two words followed by a blank and more are the same word. *)
Lemma word_split s s' t t' :
  Str.no_space s = true → Str.no_space s' = true →
  s +:+ " " +:+ t = s' +:+ " " +:+ t' → s = s' ∧ t = t'.
Proof.
  revert s'. induction s as [|a s IH]; intros [|a' s'] Hs Hs' E.
  - rewrite !app_empty_l in E. by injection E.
  - rewrite app_empty_l, app_cons in E. injection E as <- _.
    by rewrite no_space_cons in Hs'.
  - rewrite app_empty_l, app_cons in E. injection E as -> _.
    by rewrite no_space_cons in Hs.
  - rewrite !app_cons in E. injection E as -> E.
    rewrite no_space_cons, andb_true_iff in Hs, Hs'.
    destruct (IH s') as [-> ->]; [apply Hs|apply Hs'|done|done].
Qed.

Lemma join_no_blank_end s t l :
  Str.no_space s = true → s ≠ t +:+ " " +:+ l.
Proof.
  intros Hs E. rewrite E, !no_space_app in Hs.
  rewrite !andb_true_iff in Hs. by destruct Hs as [_ [? _]].
Qed.

Lemma join_inj l1 l2 :
  Forall word l1 → Forall word l2 →
  Str.join " " l1 = Str.join " " l2 → l1 = l2.
Proof.
  revert l2. induction l1 as [|s l1 IH]; intros l2 H1 H2 E.
  - destruct l2 as [|t l2]; [done|]. symmetry in E.
    by apply join_nonempty in E.
  - destruct l2 as [|t l2]; [by apply join_nonempty in E|].
    apply Forall_cons in H1 as [[Hs Hs'] H1].
    apply Forall_cons in H2 as [[Ht Ht'] H2].
    destruct l1 as [|s1 l1], l2 as [|t1 l2].
    + rewrite !join_singleton in E. by subst.
    + rewrite join_singleton, join_cons in E.
      by apply join_no_blank_end in E.
    + rewrite join_singleton, join_cons in E. symmetry in E.
      by apply join_no_blank_end in E.
    + rewrite !join_cons in E.
      apply word_split in E as [-> E]; [|done..].
      f_equal. by apply IH.
Qed.

Lemma join_prefix_startsWith l1 l2 :
  Str.startsWith (Str.join " " (l1 ++ l2)) (Str.join " " l1) = true.
Proof.
  apply startsWith_spec. destruct (decide (l1 = [])) as [->|H1].
  { by exists (Str.join " " l2). }
  destruct (decide (l2 = [])) as [->|H2].
  { exists "". by rewrite app_nil_r, app_empty_r. }
  exists (" " +:+ Str.join " " l2). by apply join_app.
Qed.

Lemma join_elem_includes l s : s ∈ l → Str.includes (Str.join " " l) s = true.
Proof.
  intros (l1 & l2 & ->)%list_elem_of_split. apply includes_spec.
  destruct (decide (l1 = [])) as [->|H1].
  - destruct l2 as [|t l2].
    + exists "", "". by rewrite app_empty_r.
    + exists "", (" " +:+ Str.join " " (t :: l2)). reflexivity.
  - exists (Str.join " " l1 +:+ " ").
    destruct l2 as [|t l2].
    + exists "". rewrite join_app, app_empty_r, app_assoc' by done. done.
    + exists (" " +:+ Str.join " " (t :: l2)).
      rewrite join_app, app_assoc' by done. done.
Qed.

End StrFacts.

(** ** Facts about one pass *)

Section Pass.

Context {Payload : Type}.

Implicit Types (c : CallbackObject Payload) (h : Hub Payload).
Implicit Types (args : Payload).
Implicit Types (st : list (CallbackObject Payload) * list (nat * Arg Payload)).

Lemma put_same h : put (objects h) (calls h) h = h.
Proof. by destruct h. Qed.

Lemma invalidate_cb m e c : cb (invalidate m e c) = cb c.
Proof. unfold invalidate. by repeat case_match. Qed.

(** The loop body on a listener whose callback is quiet. *)
Lemma visit_quiet o e args h c :
  objects h !! o = Some c → quiet c →
  visit o e args h =
  Returned () (put (alter (step e args) o (objects h))
                   (calls h ++ option_list (pair o <$> shot e args c)) h).
Proof.
  intros Ho Hq. unfold visit. rewrite Ho. unfold bind, shot.
  destruct (fires (eventMatch c e) (invalidate (eventMatch c e) e c)) eqn:Hf.
  - rewrite invalidate_cb, Hq. simpl. unfold ret, put, modify, enter. simpl.
    f_equal. f_equal. rewrite !list_alter_alter_eq.
    apply list_alter_ext; [|done]. intros c' Hc'.
    assert (c' = c) as -> by congruence.
    unfold step. by rewrite Hf.
  - unfold ret, put, modify. simpl. f_equal. f_equal.
    + rewrite !list_alter_alter_eq.
      apply list_alter_ext; [|done]. intros c' Hc'.
      assert (c' = c) as -> by congruence.
      unfold step. by rewrite Hf.
    + by rewrite app_nil_r.
Qed.

(** *** One listener, one announce *)

Lemma static_trans c1 c2 c3 : static c1 c2 → static c2 c3 → static c1 c3.
Proof.
  unfold static. intros (-> & -> & -> & -> & -> & -> & ->) H. exact H.
Qed.

Lemma step_static e args c : static c (step e args c).
Proof.
  assert (Hinv : ∀ m c0, static c0 (invalidate m e c0)).
  { intros m c0. unfold invalidate.
    destruct (isTrainOfEvent c0 && (is_strict (order c0) && negb m)); [|done].
    by destruct (Str.includes _ _). }
  assert (Hadv : ∀ m c0, static c0 (advance m e args c0)).
  { intros m c0. unfold advance.
    destruct (negb m && isTrainOfEvent c0).
    - destruct (Str.includes (event c0) e); simpl;
        destruct (Str.truthy (registered c0)); simpl; by repeat case_match.
    - by destruct (isTrainOfEvent c0). }
  assert (Hcall : ∀ c0, static c0 (after_call (before_call c0))).
  { intros c0. unfold static, after_call, before_call.
    destruct (callType c0) eqn:E; simpl; by rewrite ?E. }
  unfold step.
  set (m := eventMatch c e). set (c1 := invalidate m e c).
  assert (H1 : static c c1) by apply Hinv.
  destruct (fires m c1).
  - eapply static_trans; [|apply Hadv].
    eapply static_trans; [exact H1|apply Hcall].
  - eapply static_trans; [exact H1|apply Hadv].
Qed.

Lemma step_quiet e args c : quiet c → quiet (step e args c).
Proof.
  unfold quiet. destruct (step_static e args c) as (_ & -> & _). done.
Qed.

Lemma eventMatch_words ord pat ws c e :
  train_state ord pat ws c → Forall word pat → Forall word ws → word e →
  eventMatch c e = bool_decide (ws ++ [e] = pat).
Proof.
  intros (Ht & _ & He & Hr) Hpat Hws Hw. unfold eventMatch.
  rewrite Ht, Hr, He, trim_join_snoc by done. simpl.
  case_bool_decide as E.
  - rewrite E. apply String.eqb_refl.
  - apply String.eqb_neq. intros E'. apply E.
    apply join_inj; [|done..]. apply Forall_app. split; [done|].
    by apply Forall_singleton.
Qed.

(** The next name of the pattern arrives, and it is not the last. *)
Lemma step_extend ord pat ws rest c e args :
  train_state ord pat ws c → Forall word pat →
  pat = ws ++ e :: rest → rest ≠ [] →
  shot e args c = None ∧
  step e args c =
  set_registered (Str.join " " (ws ++ [e])) (set_sink (<[e := args]> (sink c)) c).
Proof.
  intros Hst Hpat Hp Hrest.
  assert (Forall word ws ∧ word e) as [Hws Hw].
  { rewrite Hp in Hpat. apply Forall_app in Hpat as [? Hpat].
    by apply Forall_cons in Hpat as [? _]. }
  assert (Hm : eventMatch c e = false).
  { erewrite eventMatch_words by done. apply bool_decide_eq_false.
    rewrite Hp. intros E. apply (f_equal length) in E.
    rewrite !length_app in E. simpl in E. destruct rest; [done|]. simpl in E. lia. }
  destruct Hst as (Ht & Ho & He & Hr).
  assert (Hin : Str.includes (event c) (Str.join " " (ws ++ [e])) = true).
  { rewrite He, Hp. apply startsWith_includes.
    rewrite (cons_middle e ws rest), app_assoc. apply join_prefix_startsWith. }
  assert (Hinv : invalidate false e c = c).
  { unfold invalidate. rewrite Hr, trim_join_snoc, Hin by done.
    by repeat case_match. }
  unfold shot, step. rewrite Hm, Hinv. unfold fires. simpl. split; [done|].
  unfold advance. rewrite Ht. simpl.
  assert (Str.includes (event c) e = true) as ->.
  { rewrite He, Hp. apply join_elem_includes. set_solver. }
  simpl. rewrite Hr. destruct ws as [|w ws].
  - simpl. assert (Str.startsWith (event c) e = true) as ->.
    { rewrite He, Hp. apply (join_prefix_startsWith [e] rest). }
    by rewrite word_trim.
  - assert (Hj : Str.join " " (w :: ws) ≠ "") by (by apply join_nonempty).
    destruct (Str.join " " (w :: ws)) eqn:Ej; [done|]. simpl.
    rewrite <- Ej, word_trim by done.
    rewrite <- join_snoc by done. by rewrite Hin.
Qed.

(** The last name of the pattern arrives. *)
Lemma step_complete ord pat ws c e args :
  train_state ord pat ws c → Forall word pat →
  pat = ws ++ [e] → callable c = true → callType c = On →
  shot e args c = Some (Merged (<[e := args]> (sink c))) ∧
  step e args c =
  set_registered "" (set_sink ∅ (set_callsCount (S (callsCount c)) c)).
Proof.
  intros Hst Hpat Hp Hc Hon.
  assert (Forall word ws ∧ word e) as [Hws Hw].
  { rewrite Hp in Hpat. apply Forall_app in Hpat as [? Hpat].
    by apply Forall_cons in Hpat as [? _]. }
  assert (Hm : eventMatch c e = true).
  { erewrite eventMatch_words by done. by apply bool_decide_eq_true. }
  destruct Hst as (Ht & Ho & He & Hr).
  assert (Hinv : invalidate true e c = c).
  { unfold invalidate. rewrite andb_false_r. by rewrite andb_false_r. }
  unfold shot, step. rewrite Hm, Hinv. unfold fires. rewrite Hc, Hon. simpl.
  unfold argument, advance, after_call, before_call.
  rewrite ?Ht, ?Hon. simpl. by rewrite ?Ht.
Qed.

Lemma advance_false_registered c e args :
  isTrainOfEvent c = true →
  registered (advance false e args c) =
  if Str.truthy (registered c) then
    if Str.includes (event c) (registered c +:+ " " +:+ e)
    then registered c +:+ " " +:+ Str.trim e else registered c
  else
    if Str.startsWith (event c) e then Str.trim e else registered c.
Proof.
  intros Ht. unfold advance. rewrite Ht. simpl.
  destruct (Str.includes (event c) e); simpl;
    destruct (Str.truthy (registered c)); simpl; by repeat case_match.
Qed.

Lemma advance_false_sink c e args :
  isTrainOfEvent c = true →
  sink (advance false e args c) =
  if Str.includes (event c) e then <[e := args]> (sink c) else sink c.
Proof.
  intros Ht. unfold advance. rewrite Ht. simpl.
  destruct (Str.includes (event c) e); simpl;
    destruct (Str.truthy (registered c)); simpl; by repeat case_match.
Qed.

Lemma advance_true_train c e args :
  isTrainOfEvent c = true →
  advance true e args c = set_registered "" (set_sink ∅ c).
Proof. intros Ht. unfold advance. by rewrite Ht. Qed.

Lemma shot_no_match e args c : eventMatch c e = false → shot e args c = None.
Proof. intros Hm. unfold shot, fires. by rewrite Hm. Qed.

(** A strict train: it fires only when the names announced last are
    its pattern, and what it has registered are names announced last. *)
Lemma step_strict_words pat ws hist c e args :
  train_state Strict pat ws c →
  Forall word pat → Forall word ws → word e → ws `suffix_of` hist →
  (shot e args c ≠ None → pat `suffix_of` hist ++ [e]) ∧
  ∃ ws', train_state Strict pat ws' (step e args c) ∧
         Forall word ws' ∧ ws' `suffix_of` hist ++ [e].
Proof.
  intros Hst Hpat Hws Hw Hsuf.
  pose proof (eventMatch_words _ _ _ _ _ Hst Hpat Hws Hw) as Hm.
  destruct (step_static e args c) as (Hev & _ & _ & _ & _ & Htr & Hor).
  destruct Hst as (Ht & Ho & He & Hr).
  assert (Hstat : ∀ ws', registered (step e args c) = Str.join " " ws' →
                         train_state Strict pat ws' (step e args c)).
  { intros ws' E. unfold train_state. by rewrite Htr, Hor, Hev. }
  assert (He1 : [e] `suffix_of` hist ++ [e]) by (by apply suffix_app_r).
  assert (Hwe : Forall word [e]) by (by apply Forall_singleton).
  case_bool_decide as E.
  - split; [intros _; rewrite <- E; by apply suffix_app|].
    exists []. split; [|split; [done|apply suffix_nil]].
    apply Hstat. unfold step. rewrite Hm. unfold invalidate.
    rewrite !andb_false_r.
    rewrite advance_true_train; [done|].
    unfold after_call, before_call. by repeat case_match.
  - split; [by rewrite shot_no_match|].
    unfold step in *. rewrite Hm in *. unfold fires in *. simpl in *.
    unfold invalidate in *. rewrite Ht, Ho, Hr, He, trim_join_snoc in * by done.
    simpl in *.
    destruct (Str.includes (Str.join " " pat) (Str.join " " (ws ++ [e]))) eqn:Hin.
    + rewrite advance_false_registered in Hstat by done.
      rewrite Hr, He, word_trim in Hstat by done.
      destruct ws as [|w ws].
      * simpl in Hstat.
        destruct (Str.startsWith (Str.join " " pat) e);
          [exists [e]|exists []]; (split; [by apply Hstat|]); try done.
        split; [done|apply suffix_nil].
      * assert (Hj : Str.join " " (w :: ws) ≠ "") by (by apply join_nonempty).
        assert (Str.truthy (Str.join " " (w :: ws)) = true) as Htru.
        { by destruct (Str.join " " (w :: ws)). }
        rewrite Htru, <- join_snoc, Hin in Hstat by done.
        exists ((w :: ws) ++ [e]). split; [by apply Hstat|].
        split; [by apply Forall_app|by apply suffix_app].
    + rewrite advance_false_registered in Hstat by done. simpl in Hstat.
      rewrite He, word_trim in Hstat by done.
      destruct (Str.startsWith (Str.join " " pat) e);
        [exists [e]|exists []]; (split; [by apply Hstat|]); try done.
      split; [done|apply suffix_nil].
Qed.

(** A name that does not occur in the pattern string. *)
Lemma foreign_no_match c e :
  isTrainOfEvent c = true → word e → Str.includes (event c) e = false →
  eventMatch c e = false ∧
  Str.includes (event c) (Str.trim (registered c +:+ " " +:+ e)) = false ∧
  Str.includes (event c) (registered c +:+ " " +:+ e) = false ∧
  Str.startsWith (event c) e = false.
Proof.
  intros Ht Hw Hf.
  assert (Hno : ∀ l, Str.includes (event c) (l +:+ e) = false).
  { intros l. destruct (Str.includes (event c) (l +:+ e)) eqn:E; [|done].
    apply includes_app_l in E. congruence. }
  destruct (trim_app_word (registered c +:+ " ") e Hw) as [l Hl].
  rewrite app_assoc' in Hl.
  split; [|split; [by rewrite Hl|split]].
  - unfold eventMatch. rewrite Ht, Hl. simpl. apply String.eqb_neq.
    intros E. specialize (Hno l). rewrite <- E in Hno.
    assert (Str.includes (l +:+ e) (l +:+ e) = true); [|congruence].
    apply includes_spec. exists "", "". by rewrite app_empty_r.
  - rewrite <- app_assoc'. apply Hno.
  - destruct (Str.startsWith (event c) e) eqn:E; [|done].
    apply startsWith_includes in E. congruence.
Qed.

Lemma step_strict_foreign c e args :
  isTrainOfEvent c = true → order c = Some Strict →
  word e → Str.includes (event c) e = false →
  shot e args c = None ∧
  registered (step e args c) = "" ∧ sink (step e args c) = ∅.
Proof.
  intros Ht Ho Hw Hf.
  destruct (foreign_no_match c e Ht Hw Hf) as (Hm & Hi & _ & Hs).
  split; [by apply shot_no_match|].
  unfold step. rewrite Hm. unfold fires. simpl.
  unfold invalidate. rewrite Ht, Ho, Hi. simpl.
  rewrite advance_false_registered, advance_false_sink by done. simpl.
  by rewrite Hs, Hf.
Qed.

Lemma step_loose_foreign c e args :
  isTrainOfEvent c = true → is_strict (order c) = false →
  word e → Str.includes (event c) e = false →
  shot e args c = None ∧ step e args c = c.
Proof.
  intros Ht Ho Hw Hf.
  destruct (foreign_no_match c e Ht Hw Hf) as (Hm & _ & Hi & Hs).
  split; [by apply shot_no_match|].
  unfold step. rewrite Hm. unfold fires. simpl.
  unfold invalidate. rewrite Ht, Ho. simpl.
  unfold advance. rewrite Ht, Hf, Hi, Hs. simpl. by repeat case_match.
Qed.

(** *** One pass over quiet listeners *)

Lemma sweep_cons e args o l st :
  sweep e args (o :: l) st = sweep e args l (sweep1 e args st o).
Proof. reflexivity. Qed.

Lemma sweep_app e args l1 l2 st :
  sweep e args (l1 ++ l2) st = sweep e args l2 (sweep e args l1 st).
Proof. apply foldl_app. Qed.

Lemma sweep1_length e args st o : length (sweep1 e args st o).1 = length st.1.
Proof. unfold sweep1. case_match; [|done]. simpl. apply length_alter. Qed.

Lemma sweep_length e args l st : length (sweep e args l st).1 = length st.1.
Proof.
  revert st. induction l as [|o l IH]; intros st; [done|].
  by rewrite sweep_cons, IH, sweep1_length.
Qed.

Lemma sweep1_quiet e args st o :
  Forall quiet st.1 → Forall quiet (sweep1 e args st o).1.
Proof.
  intros Hq. unfold sweep1. case_match; [|done]. simpl.
  apply Forall_alter; [done|]. intros ? _. apply step_quiet.
Qed.

Lemma sweep_quiet e args l st :
  Forall quiet st.1 → Forall quiet (sweep e args l st).1.
Proof.
  revert st. induction l as [|o l IH]; intros st Hq; [done|].
  rewrite sweep_cons. by apply IH, sweep1_quiet.
Qed.

Lemma sweep1_other e args st o o' :
  o ≠ o' →
  (sweep1 e args st o').1 !! o = st.1 !! o ∧
  filter (fun x => x.1 = o) (sweep1 e args st o').2 =
  filter (fun x => x.1 = o) st.2.
Proof.
  intros Hne. unfold sweep1. case_match; [|done]. simpl. split.
  - by apply list_lookup_alter_ne.
  - rewrite filter_app. destruct (shot e args c); simpl; [|by rewrite app_nil_r].
    rewrite filter_cons_False, filter_nil, app_nil_r; [done|]. simpl. congruence.
Qed.

Lemma sweep_other e args l st o :
  o ∉ l →
  (sweep e args l st).1 !! o = st.1 !! o ∧
  filter (fun x => x.1 = o) (sweep e args l st).2 =
  filter (fun x => x.1 = o) st.2.
Proof.
  revert st. induction l as [|o' l IH]; intros st Hl; [done|].
  apply not_elem_of_cons in Hl as [Hne Hl]. rewrite sweep_cons.
  destruct (IH (sweep1 e args st o') Hl) as [-> ->].
  by apply sweep1_other.
Qed.

Lemma sweep1_at e args st o c :
  st.1 !! o = Some c →
  (sweep1 e args st o).1 !! o = Some (step e args c) ∧
  filter (fun x => x.1 = o) (sweep1 e args st o).2 =
  filter (fun x => x.1 = o) st.2 ++ option_list (pair o <$> shot e args c).
Proof.
  intros Ho. unfold sweep1. rewrite Ho. simpl. split.
  - by rewrite list_lookup_alter_eq, Ho.
  - rewrite filter_app. f_equal. destruct (shot e args c); [|done]. simpl.
    by rewrite filter_cons_True.
Qed.

(** The loop of [emit] when every callback is quiet. *)
Lemma iterate_inert fuel arr i e args h l :
  inert h → arrays h !! arr = Some l →
  Forall (fun o => o < length (objects h)) l →
  length l - i < fuel →
  iterate fuel arr i e args h =
  Returned (skipn i l)
    (put (sweep e args (skipn i l) (objects h, calls h)).1
         (sweep e args (skipn i l) (objects h, calls h)).2 h).
Proof.
  revert i h. induction fuel as [|fuel IH]; intros i h Hq Harr Hl Hf; [lia|].
  simpl. rewrite Harr. simpl. destruct (l !! i) as [o|] eqn:Hi.
  - rewrite (drop_S _ _ _ Hi), sweep_cons.
    assert (Ho : o < length (objects h)).
    { eapply Forall_lookup_1 in Hl; [|done]. done. }
    apply lookup_lt_is_Some_2 in Ho as [c Hc].
    unfold bind at 1. rewrite (visit_quiet _ _ _ _ c) by
      (done || by eapply Forall_lookup_1 in Hq).
    unfold bind. rewrite IH.
    + unfold ret, sweep1. simpl. rewrite Hc. done.
    + simpl. apply Forall_alter; [done|]. intros ? _. apply step_quiet.
    + done.
    + simpl. by rewrite length_alter.
    + apply lookup_lt_Some in Hi. lia.
  - apply lookup_ge_None_1 in Hi. rewrite drop_ge by done. simpl.
    by rewrite put_same.
Qed.

Lemma emit_inert fuel e args h :
  connected h = true → inert h → well_formed h →
  length (registry h) < fuel →
  emit fuel e args h =
  Returned ()
    (put (sweep e args (registry h) (objects h, calls h)).1
         (sweep e args (registry h) (objects h, calls h)).2 h).
Proof.
  intros Hc Hq [Ha Hl] Hf. unfold emit. rewrite Hc. simpl.
  apply lookup_lt_is_Some_2 in Ha as [l Harr].
  unfold registry in *. rewrite Harr in *. simpl in *.
  unfold bind. erewrite iterate_inert; [|done|done|done|lia].
  by rewrite drop_0.
Qed.

(** One announce, seen from a listener registered once. *)
Lemma emit_listening fuel e args o c h :
  listening o c h → length (registry h) < fuel →
  ∃ h', emit fuel e args h = Returned () h' ∧
        listening o (step e args c) h' ∧
        length (registry h') = length (registry h) ∧
        invocations o h' = invocations o h ++ option_list (shot e args c).
Proof.
  intros (Hc & Hq & Hwf & (l1 & l2 & Hreg & H1 & H2) & Ho) Hf.
  eexists. split; [by apply emit_inert|].
  set (st := sweep e args (registry h) (objects h, calls h)).
  assert (Hst : st.1 !! o = Some (step e args c) ∧
                filter (fun x => x.1 = o) st.2 =
                filter (fun x => x.1 = o) (calls h)
                ++ option_list (pair o <$> shot e args c)).
  { unfold st. rewrite Hreg, sweep_app, sweep_cons.
    set (st1 := sweep e args l1 (objects h, calls h)).
    destruct (sweep_other e args l1 (objects h, calls h) o H1) as [E1 E2].
    fold st1 in E1, E2. simpl in E1, E2.
    destruct (sweep1_at e args st1 o c) as [E3 E4]; [by rewrite E1|].
    destruct (sweep_other e args l2 (sweep1 e args st1 o) o H2) as [-> ->].
    by rewrite E3, E4, E2. }
  destruct Hst as [Hst1 Hst2].
  split; [|split; [done|]].
  - split; [done|]. split; [|split; [|split]].
    + unfold inert. simpl. by apply sweep_quiet.
    + destruct Hwf as [Ha Hl]. split; [done|].
      unfold registry in *. simpl. unfold st. by rewrite sweep_length.
    + by exists l1, l2.
    + done.
  - unfold invocations. simpl. rewrite Hst2, fmap_app. f_equal.
    by destruct (shot e args c).
Qed.

End Pass.

(** ** Facts about registration *)

Section Registration.

Context {Payload : Type}.

Implicit Types (c : CallbackObject Payload) (h : Hub Payload).

Lemma say_nil h : say [] h = h.
Proof. destruct h. unfold say. simpl. by rewrite app_nil_r. Qed.

Lemma say_say ms1 ms2 h : say ms2 (say ms1 h) = say (ms1 ++ ms2) h.
Proof. unfold say. simpl. by rewrite app_assoc. Qed.

Lemma full_say ms h : full (say ms h) = full h.
Proof. reflexivity. Qed.

(** The per-pattern check compares [NaN] and lets everything pass. *)
Lemma check_event_returns e h : ∃ ms, check_event e h = Returned () (say ms h).
Proof.
  unfold check_event. destruct (events h !! e) as [q|];
    [|exists []; by rewrite say_nil].
  destruct (Num.truthy (Quota.maxListeners q));
    [|exists []; by rewrite say_nil].
  assert (Hnan : match events h !! "count" with
                 | Some _ | None => Num.NaN
                 end = Num.NaN :> Num.t) by (by case_match).
  rewrite Hnan. simpl. exists []. by rewrite say_nil.
Qed.

Lemma forEach_check_returns l h :
  ∃ ms, forEach check_event l h = Returned () (say ms h).
Proof.
  revert h. induction l as [|e l IH]; intros h; simpl.
  - exists []. unfold ret. by rewrite say_nil.
  - unfold bind. destruct (check_event_returns e h) as [ms1 ->].
    destruct (IH (say ms1 h)) as [ms2 ->]. exists (ms1 ++ ms2).
    by rewrite say_say.
Qed.

Lemma check_global_spec h :
  ∃ ms, check_global h =
        if full h then Thrown max_listener_limit h
        else Returned () (say ms h).
Proof.
  unfold check_global, full. cbv zeta.
  destruct (Num.truthy (maxListeners h)); cbn [andb];
    [|exists []; by rewrite say_nil].
  destruct (Num.ge (Num.of_nat (length (registry h))) (maxListeners h));
    [by exists []|].
  case_match; [by eexists [_]|exists []; by rewrite say_nil].
Qed.

Lemma validate_spec ev h :
  ∃ ms, validate ev h =
        if full h then Thrown max_listener_limit (say (disconnected_warning h) h)
        else Returned true (say (disconnected_warning h ++ ms) h).
Proof.
  unfold validate, disconnected_warning.
  set (h1 := if connected h then h else _).
  assert (Hh1 : h1 = say (if connected h then [] else
                   ["[LocalSocket]: Instance is disconnected"]) h).
  { unfold h1. destruct (connected h); [by rewrite say_nil|done]. }
  rewrite Hh1. unfold bind at 1.
  destruct (check_global_spec (say (if connected h then [] else
              ["[LocalSocket]: Instance is disconnected"]) h)) as [ms1 ->].
  rewrite full_say. destruct (full h); [by exists []|].
  unfold bind.
  destruct (forEach_check_returns (concat ev) (say ms1 (say (if connected h then [] else
              ["[LocalSocket]: Instance is disconnected"]) h))) as [ms2 ->].
  unfold ret. exists (ms1 ++ ms2). by rewrite !say_say, app_assoc.
Qed.

(** What each register operation does, in one statement. *)
Lemma register_spec m ev f k h :
  ∃ ms, register m ev f k h =
        if full h then Thrown max_listener_limit (say (disconnected_warning h) h)
        else Returned (Some k)
               (count_event (stringified ev)
                  (install (listener_of m ev f k) k
                     (say (disconnected_warning h ++ ms) h))).
Proof.
  destruct (validate_spec ev h) as [ms Hv]. exists ms.
  destruct m; simpl; unfold on, onOrderOf, onceOrderOf, once, bind;
    rewrite Hv; by destruct (full h).
Qed.

Lemma count_event_frame s h : ∃ q, count_event s h = set_events q h.
Proof. unfold count_event. case_match; by eexists. Qed.

Lemma registry_install c k h :
  callbacks h < length (arrays h) →
  registry (install c k h) = registry h ++ [length (objects h)].
Proof.
  intros [l Hl]%lookup_lt_is_Some_2. unfold registry. simpl.
  by rewrite list_lookup_alter_eq, Hl.
Qed.

(** A listener registered on a connected instance with quiet
    callbacks is listening. *)
Lemma register_listening m ev f k h h1 :
  connected h = true → inert h → well_formed h →
  (∀ g, f = Some g → body g = []) →
  register m ev f k h = Returned (Some k) h1 →
  listening (length (objects h)) (listener_of m ev f k) h1 ∧
  length (registry h1) = S (length (registry h)) ∧
  keys h1 !! k = Some (length (objects h)) ∧
  calls h1 = calls h.
Proof.
  intros Hc Hq [Ha Hl] Hf Hreg.
  destruct (register_spec m ev f k h) as [ms Hspec]. rewrite Hspec in Hreg.
  destruct (full h); [done|]. injection Hreg as <-.
  set (c := listener_of m ev f k).
  set (h0 := say (disconnected_warning h ++ ms) h).
  destruct (count_event_frame (stringified ev) (install c k h0)) as [q ->].
  assert (Hr : registry (set_events q (install c k h0)) =
               registry h ++ [length (objects h)]).
  { change (registry (set_events q (install c k h0)))
      with (registry (install c k h0)).
    by rewrite registry_install. }
  split; [|split; [|split]].
  - split; [done|]. split; [|split; [|split]].
    + unfold inert. simpl. apply Forall_app. split; [done|].
      apply Forall_singleton. unfold quiet, c.
      assert (cb (listener_of m ev f k) = default noop f) as -> by by destruct m.
      destruct f as [g|]; [by apply Hf|done].
    + split; [simpl; by rewrite length_alter|].
      rewrite Hr. simpl. rewrite length_app. simpl.
      apply Forall_app. split.
      * eapply Forall_impl; [done|]. simpl. lia.
      * apply Forall_singleton. lia.
    + exists (registry h), []. rewrite Hr. split; [done|].
      split; [|set_solver]. intros Hin.
      eapply Forall_forall in Hl; [|done]. lia.
    + simpl. by rewrite lookup_app_r, Nat.sub_diag.
  - rewrite Hr, length_app. simpl. lia.
  - simpl. by rewrite lookup_insert_eq.
  - done.
Qed.

(** A register operation below the ceiling. *)
Lemma register_returns m ev f k h :
  callbacks h < length (arrays h) → full h = false →
  ∃ h1 ms, register m ev f k h = Returned (Some k) h1 ∧
           registry h1 = registry h ++ [length (objects h)] ∧
           objects h1 = objects h ++ [listener_of m ev f k] ∧
           keys h1 = <[k := length (objects h)]> (keys h) ∧
           console h1 = console h ++ disconnected_warning h ++ ms ∧
           maxListeners h1 = maxListeners h ∧
           connected h1 = connected h ∧
           callbacks h1 < length (arrays h1).
Proof.
  intros Ha Hfull. destruct (register_spec m ev f k h) as [ms Hreg].
  rewrite Hfull in Hreg. eexists. exists ms. split; [exact Hreg|].
  destruct (count_event_frame (stringified ev)
              (install (listener_of m ev f k) k
                 (say (disconnected_warning h ++ ms) h))) as [q ->].
  split; [|split; [done|split; [done|split; [done|split; [done|split; [done|]]]]]].
  - change (registry (set_events q ?x)) with (registry x).
    by rewrite registry_install.
  - simpl. by rewrite length_alter.
Qed.

(** A register operation at the ceiling. *)
Lemma register_throws m ev f k h :
  full h = true →
  register m ev f k h =
  Thrown max_listener_limit (say (disconnected_warning h) h).
Proof.
  intros Hfull. destruct (register_spec m ev f k h) as [ms Hreg].
  by rewrite Hfull in Hreg.
Qed.

(** No register operation ever throws the error of the per-pattern
    ceiling. *)
Lemma per_pattern_limit_never_thrown m ev f k h e h' :
  register m ev f k h ≠ Thrown (max_listener_limit_for e) h'.
Proof.
  destruct (register_spec m ev f k h) as [ms ->].
  destruct (full h); [|done]. intros E. injection E as E _.
  apply (f_equal String.length) in E. unfold max_listener_limit_for in E.
  rewrite app_length in E. simpl in E. lia.
Qed.

Lemma full_ceiling h (n : Z) :
  maxListeners h = Some n → n ≠ 0%Z →
  full h = bool_decide (n ≤ Z.of_nat (length (registry h)))%Z.
Proof.
  intros Hm Hc. unfold full. rewrite Hm. simpl.
  destruct (Z.eqb_spec n 0); [done|]. simpl.
  case_bool_decide; [by apply Z.leb_le|by apply Z.leb_gt; lia].
Qed.

End Registration.

(** ** Trains of events *)

Section Trains.

Context {Payload : Type}.

Implicit Types (c : CallbackObject Payload) (h : Hub Payload).
Implicit Types (args pa pb pc px : Payload).

Lemma map_trim_words pat : Forall word pat → map Str.trim pat = pat.
Proof.
  induction 1 as [|w pat Hw _ IH]; [done|]. simpl. by rewrite word_trim, IH.
Qed.

(** The listener object of a register operation on a list of words. *)
Lemma listener_of_train m pat f k :
  Forall word pat →
  let c : CallbackObject Payload := listener_of m (Many pat) f k in
  train_state (match m with MOn | MOnce => Loose | _ => Strict end) pat [] c ∧
  sink c = ∅ ∧ callable c = true ∧
  callType c = match m with MOn | MOnOrderOf => On | _ => Once end.
Proof.
  intros Hpat. unfold train_state.
  destruct m; simpl; by rewrite map_trim_words.
Qed.

Lemma train_state_progress ord pat ws ws' s c :
  train_state ord pat ws c →
  train_state ord pat ws' (set_registered (Str.join " " ws') (set_sink s c)).
Proof. by intros (? & ? & ? & _). Qed.

(** The three names of a pattern announced in its order. *)
Lemma announce_in_order ord o c h fuel A B C pa pb pc :
  listening o c h → length (registry h) < fuel →
  train_state ord [A; B; C] [] c → sink c = ∅ →
  callable c = true → callType c = On →
  word A → word B → word C →
  ∃ h', announce_all fuel [(A, pa); (B, pb); (C, pc)] h = Returned () h' ∧
        invocations o h' =
        invocations o h ++ [Merged (<[C := pc]> (<[B := pb]> (<[A := pa]> ∅)))].
Proof.
  intros Hl Hf Hst Hs Hc Ht HA HB HC.
  assert (Hpat : Forall word [A; B; C]) by (by rewrite !Forall_cons, Forall_nil).
  destruct (step_extend ord [A; B; C] [] [B; C] c A pa) as [Hs1 Hc1]; [done..|].
  destruct (emit_listening fuel A pa o c h Hl Hf) as (h1 & E1 & Hl1 & Hn1 & Hi1).
  rewrite Hs1, Hc1 in *. clear Hs1 Hc1. simpl in Hl1. rewrite Hs in Hl1.
  set (c1 := set_registered (Str.join " " [A]) (set_sink (<[A:=pa]> ∅) c)) in *.
  assert (Hst1 : train_state ord [A; B; C] [A] c1)
    by (by eapply train_state_progress).
  destruct (step_extend ord [A; B; C] [A] [C] c1 B pb) as [Hs2 Hc2]; [done..|].
  destruct (emit_listening fuel B pb o c1 h1 Hl1) as (h2 & E2 & Hl2 & Hn2 & Hi2);
    [lia|].
  rewrite Hs2, Hc2 in *. clear Hs2 Hc2. simpl in Hl2.
  set (c2 := set_registered (Str.join " " [A; B])
               (set_sink (<[B:=pb]> (<[A:=pa]> ∅)) c1)) in *.
  assert (Hst2 : train_state ord [A; B; C] [A; B] c2)
    by (by eapply train_state_progress).
  destruct (step_complete ord [A; B; C] [A; B] c2 C pc) as [Hs3 Hc3]; [done..|].
  destruct (emit_listening fuel C pc o c2 h2 Hl2) as (h3 & E3 & Hl3 & Hn3 & Hi3);
    [lia|].
  rewrite Hs3 in Hi3. simpl in Hi1, Hi2, Hi3.
  exists h3. split.
  - simpl. unfold bind. by rewrite E1, E2, E3.
  - by rewrite Hi3, Hi2, Hi1, !app_nil_r.
Qed.

Lemma pattern_not_suffix (A B C X : string) :
  X ≠ A → X ≠ B → X ≠ C →
  ¬ [A; B; C] `suffix_of` [A] ∧ ¬ [A; B; C] `suffix_of` [A; X] ∧
  ¬ [A; B; C] `suffix_of` [A; X; B] ∧ ¬ [A; B; C] `suffix_of` [A; X; B; C].
Proof.
  intros HA HB HC. repeat split; intros [k Hk];
    do 5 (try (destruct k as [|? k]; simplify_eq/=)); congruence.
Qed.

(** A strict train on [A], [B], [C] and the announces [A], [X], [B],
    [C] with a stranger [X]. *)
Lemma announce_with_stranger o c h fuel A B C X pa px pb pc :
  listening o c h → length (registry h) < fuel →
  train_state Strict [A; B; C] [] c →
  word A → word B → word C → word X → X ∉ [A; B; C] →
  ∃ h', announce_all fuel [(A, pa); (X, px); (B, pb); (C, pc)] h = Returned () h' ∧
        invocations o h' = invocations o h.
Proof.
  intros Hl Hf Hst HA HB HC HX Hnot.
  assert (X ≠ A ∧ X ≠ B ∧ X ≠ C) as (HXA & HXB & HXC).
  { rewrite !not_elem_of_cons in Hnot. tauto. }
  destruct (pattern_not_suffix A B C X HXA HXB HXC) as (N1 & N2 & N3 & N4).
  clear Hnot.
  assert (Hpat : Forall word [A; B; C]) by (by rewrite !Forall_cons, Forall_nil).
  destruct (step_strict_words [A; B; C] [] [] c A pa)
    as (Hs1 & ws1 & Hst1 & Hw1 & Hsuf1); [done..|].
  destruct (emit_listening fuel A pa o c h Hl Hf) as (h1 & E1 & Hl1 & Hn1 & Hi1).
  destruct (step_strict_words [A; B; C] ws1 [A] (step A pa c) X px)
    as (Hs2 & ws2 & Hst2 & Hw2 & Hsuf2); [done..|].
  destruct (emit_listening fuel X px o _ h1 Hl1) as (h2 & E2 & Hl2 & Hn2 & Hi2);
    [lia|].
  destruct (step_strict_words [A; B; C] ws2 [A; X] (step X px (step A pa c)) B pb)
    as (Hs3 & ws3 & Hst3 & Hw3 & Hsuf3); [done..|].
  destruct (emit_listening fuel B pb o _ h2 Hl2) as (h3 & E3 & Hl3 & Hn3 & Hi3);
    [lia|].
  destruct (step_strict_words [A; B; C] ws3 [A; X; B]
              (step B pb (step X px (step A pa c))) C pc)
    as (Hs4 & ws4 & Hst4 & Hw4 & Hsuf4); [done..|].
  destruct (emit_listening fuel C pc o _ h3 Hl3) as (h4 & E4 & Hl4 & Hn4 & Hi4);
    [lia|].
  assert (shot A pa c = None) as Q1.
  { destruct (shot A pa c); [|done]. exfalso.
    apply N1. by apply Hs1. }
  assert (shot X px (step A pa c) = None) as Q2.
  { destruct (shot X px (step A pa c)); [|done]. exfalso.
    apply N2. by apply Hs2. }
  assert (shot B pb (step X px (step A pa c)) = None) as Q3.
  { destruct (shot B pb (step X px (step A pa c))); [|done]. exfalso.
    apply N3. by apply Hs3. }
  assert (shot C pc (step B pb (step X px (step A pa c))) = None) as Q4.
  { destruct (shot C pc (step B pb (step X px (step A pa c)))); [|done]. exfalso.
    apply N4. by apply Hs4. }
  exists h4. split.
  - simpl. unfold bind. by rewrite E1, E2, E3, E4.
  - rewrite Hi4, Hi3, Hi2, Hi1, Q1, Q2, Q3, Q4. simpl.
    by rewrite !app_nil_r.
Qed.

End Trains.

(** ** Ordered and loose trains (C1, C2) *)

Section TrainClaims.

Context {Payload : Type}.

Implicit Types (c : CallbackObject Payload) (h : Hub Payload).
Implicit Types (pa pb pc px : Payload).

(** A persistent train registered on a connected instance with quiet
    callbacks, and its three names announced in order. *)
Lemma persistent_train_in_order m h f k A B C pa pb pc fuel :
  callType (listener_of (Payload:=Payload) m (Many [A; B; C]) f k) = On →
  word A → word B → word C → A ≠ B → A ≠ C → B ≠ C →
  connected h = true → inert h → well_formed h →
  (∀ g, f = Some g → body g = []) → full h = false →
  S (length (registry h)) < fuel →
  ∃ h1, register m (Many [A; B; C]) f k h = Returned (Some k) h1 ∧
        keys h1 !! k = Some (length (objects h)) ∧
        ∃ h', announce_all fuel [(A, pa); (B, pb); (C, pc)] h1 = Returned () h' ∧
              called_once_with (length (objects h)) h1 h' A B C pa pb pc.
Proof.
  intros Hon HA HB HC HAB HAC HBC Hc Hq Hwf Hf Hfull Hfuel.
  destruct (register_spec m (Many [A; B; C]) f k h) as [ms Hreg].
  rewrite Hfull in Hreg. eexists. split; [exact Hreg|].
  destruct (register_listening _ _ _ _ _ _ Hc Hq Hwf Hf Hreg)
    as (Hl & Hlen & Hk & _).
  split; [done|].
  assert (Hpat : Forall word [A; B; C]) by (by rewrite !Forall_cons, Forall_nil).
  destruct (listener_of_train (Payload:=Payload) m [A; B; C] f k Hpat)
    as (Hst & Hs & Hca & _).
  destruct (announce_in_order
              (match m with MOn | MOnce => Loose | _ => Strict end)
              _ _ _ fuel A B C pa pb pc Hl)
    as (h' & E & Hi); [lia|done..|].
  exists h'. split; [done|]. eexists. split; [done|].
  by rewrite lookup_insert_ne, lookup_insert_ne, lookup_insert_eq,
             lookup_insert_ne, lookup_insert_eq, lookup_insert_eq.
Qed.

(** C2, as amended: a persistent STRICT listener registered with
    [onOrderOf] on three distinct names [A], [B], [C]: announcing [A],
    [B], [C] in a row calls it exactly once, with a record holding the
    payloads announced for [A], [B] and [C]; announcing [A], [X], [B],
    [C], where [X] is none of the three, does not call it.  The names
    [A], [B], [C] and [X] are non-empty words without white space, the
    instance is connected, below its global ceiling, and its
    callbacks, that of the listener too, do not call it. *)
Theorem strict_train_fires_in_order_only h f k A B C X pa pb pc px fuel :
  word A → word B → word C → word X →
  A ≠ B → A ≠ C → B ≠ C → X ∉ [A; B; C] →
  connected h = true → inert h → well_formed h →
  (∀ g, f = Some g → body g = []) → full h = false →
  S (length (registry h)) < fuel →
  ∃ h1, onOrderOf (Many [A; B; C]) f k h = Returned (Some k) h1 ∧
        keys h1 !! k = Some (length (objects h)) ∧
        (∃ h', announce_all fuel [(A, pa); (B, pb); (C, pc)] h1 = Returned () h' ∧
               called_once_with (length (objects h)) h1 h' A B C pa pb pc) ∧
        (∃ h', announce_all fuel [(A, pa); (X, px); (B, pb); (C, pc)] h1
               = Returned () h' ∧
               invocations (length (objects h)) h' =
               invocations (length (objects h)) h1).
Proof.
  intros HA HB HC HX HAB HAC HBC HXn Hc Hq Hwf Hf Hfull Hfuel.
  destruct (persistent_train_in_order MOnOrderOf h f k A B C pa pb pc fuel)
    as (h1 & Hreg & Hk & Hin); [done..|].
  exists h1. split; [done|]. split; [done|]. split; [done|].
  destruct (register_listening _ _ _ _ _ _ Hc Hq Hwf Hf Hreg)
    as (Hl & Hlen & _).
  assert (Hpat : Forall word [A; B; C]) by (by rewrite !Forall_cons, Forall_nil).
  destruct (listener_of_train (Payload:=Payload) MOnOrderOf [A; B; C] f k Hpat)
    as (Hst & _).
  eapply announce_with_stranger; [done|lia|done..].
Qed.

(** C1, as amended: a persistent LOOSE listener registered with
    [on] for three distinct names [A], [B], [C] is called exactly
    once, with the payloads of all three, when the three names are
    announced in the order of the pattern.  The names are non-empty
    words without white space, the instance is connected, below its
    global ceiling, and its callbacks, that of the listener too, do not
    call it. *)
Theorem loose_train_fires_in_pattern_order h f k A B C pa pb pc fuel :
  word A → word B → word C →
  A ≠ B → A ≠ C → B ≠ C →
  connected h = true → inert h → well_formed h →
  (∀ g, f = Some g → body g = []) → full h = false →
  S (length (registry h)) < fuel →
  ∃ h1, on (Many [A; B; C]) f k h = Returned (Some k) h1 ∧
        keys h1 !! k = Some (length (objects h)) ∧
        ∃ h', announce_all fuel [(A, pa); (B, pb); (C, pc)] h1 = Returned () h' ∧
              called_once_with (length (objects h)) h1 h' A B C pa pb pc.
Proof.
  intros. by apply (persistent_train_in_order MOn).
Qed.

End TrainClaims.

Lemma strict_train_fires_in_order_only_witness :
  ∃ h1, onOrderOf (Many ["login"; "fetch"; "render"]) None "k1" fresh
        = Returned (Some "k1") h1 ∧
        keys h1 !! "k1" = Some 0 ∧
        (∃ h', announce_all 2 [("login", 1); ("fetch", 2); ("render", 3)] h1
               = Returned () h' ∧
               called_once_with 0 h1 h' "login" "fetch" "render" 1 2 3) ∧
        (∃ h', announce_all 2
                 [("login", 1); ("logout", 9); ("fetch", 2); ("render", 3)] h1
               = Returned () h' ∧
               invocations 0 h' = invocations 0 h1).
Proof.
  apply (strict_train_fires_in_order_only fresh None "k1"
           "login" "fetch" "render" "logout" 1 2 3 9 2);
    try (split; [discriminate|reflexivity]); try discriminate.
  - rewrite !not_elem_of_cons. repeat split; try discriminate. apply not_elem_of_nil.
  - reflexivity.
  - apply Forall_nil. exact I.
  - split; [simpl; lia|apply Forall_nil; exact I].
  - reflexivity.
  - simpl. lia.
Defined.

Lemma loose_train_fires_in_pattern_order_witness :
  ∃ h1, on (Many ["A"; "B"; "C"]) None "k1" fresh = Returned (Some "k1") h1 ∧
        keys h1 !! "k1" = Some 0 ∧
        ∃ h', announce_all 2 [("A", 1); ("B", 2); ("C", 3)] h1 = Returned () h' ∧
              called_once_with 0 h1 h' "A" "B" "C" 1 2 3.
Proof.
  apply (loose_train_fires_in_pattern_order fresh None "k1" "A" "B" "C" 1 2 3 2);
    try (split; [discriminate|reflexivity]); try discriminate.
  - reflexivity.
  - apply Forall_nil. exact I.
  - split; [simpl; lia|apply Forall_nil; exact I].
  - reflexivity.
  - simpl. lia.
Defined.

(** C1, as stated, fails: a LOOSE listener on [A], [B], [C] is not
    called when the names are announced in the order [B], [A], [C]. *)
Lemma loose_train_out_of_order_counterexample :
  ∃ h1 h', on (Many ["A"; "B"; "C"]) None "k1" fresh = Returned (Some "k1") h1 ∧
           keys h1 !! "k1" = Some 0 ∧
           announce_all 2 [("B", 2); ("A", 1); ("C", 3)] h1 = Returned () h' ∧
           invocations 0 h' = [].
Proof.
  eexists. eexists. split; [reflexivity|]. split; [reflexivity|].
  split; [vm_compute; reflexivity|reflexivity].
Qed.

(** C2, as stated, fails where a name has white space.  A strict
    listener on [a], [b], [c] is called after [a], [X], [b], [c] when
    [X] is a blank, which is none of the three names: [emit] compares
    the trimmed row of names, which the blank does not change.  And a
    strict listener whose first name is [a] after a blank is not called
    after its three names in a row: the register operation trims each
    name of the pattern and [emit] does not trim the start of what is
    announced. *)
Lemma strict_train_blank_stranger_counterexample :
  ((" " ∉ ["a"; "b"; "c"]) ∧
   ∃ h', announce_all 2 [("a", 1); (" ", 9); ("b", 2); ("c", 3)] strict_abc
         = Returned () h' ∧
         invocations 0 h' =
         [Merged (<["c" := 3]> (<["b" := 2]> (<[" " := 9]> {["a" := 1]})))]) ∧
  (∃ h1 h', onOrderOf (Many [" a"; "b"; "c"]) None "k1" fresh
            = Returned (Some "k1") h1 ∧
            keys h1 !! "k1" = Some 0 ∧
            announce_all 2 [(" a", 1); ("b", 2); ("c", 3)] h1 = Returned () h' ∧
            invocations 0 h' = []).
Proof.
  split.
  - split.
    + rewrite !not_elem_of_cons. repeat split; try discriminate.
      apply not_elem_of_nil.
    + eexists. split; [vm_compute; reflexivity|reflexivity].
  - eexists. eexists. split; [reflexivity|]. split; [reflexivity|].
    split; [vm_compute; reflexivity|reflexivity].
Qed.

(** C1: why the names of the amended statement are words.  A loose
    listener whose first name is [a] after a blank is never called
    when its three names are announced in the order of the pattern. *)
Lemma loose_train_padded_name_not_called :
  ∃ h1 h', on (Many [" a"; "b"; "c"]) None "k1" fresh = Returned (Some "k1") h1 ∧
           keys h1 !! "k1" = Some 0 ∧
           announce_all 2 [(" a", 1); ("b", 2); ("c", 3)] h1 = Returned () h' ∧
           invocations 0 h' = [].
Proof.
  eexists. eexists. split; [reflexivity|]. split; [reflexivity|].
  split; [vm_compute; reflexivity|reflexivity].
Qed.

(** ** Announces of a name foreign to the pattern (C3) *)

Section ForeignClaims.

Context {Payload : Type}.

Implicit Types (c : CallbackObject Payload) (h : Hub Payload).

(** C3, as amended: when a name that does not occur in the pattern
    string of a multi-name listener is announced, a STRICT listener
    loses its progress (matched prefix and accumulated payloads are
    cleared), and a LOOSE listener keeps both as they were; neither is
    called.  The name announced is a non-empty word without white
    space, the instance is connected, its callbacks do not call it,
    and the listener stands once in the registry, with whatever
    progress. *)
Theorem foreign_event_resets_strict_only o c h X px fuel :
  listening o c h → isTrainOfEvent c = true →
  word X → Str.includes (event c) X = false →
  length (registry h) < fuel →
  ∃ h' c', emit fuel X px h = Returned () h' ∧
           objects h' !! o = Some c' ∧
           invocations o h' = invocations o h ∧
           if is_strict (order c)
           then registered c' = "" ∧ sink c' = ∅
           else registered c' = registered c ∧ sink c' = sink c.
Proof.
  intros Hl Ht HX Hno Hf.
  destruct (emit_listening fuel X px o c h Hl Hf) as (h' & E & Hl' & _ & Hi).
  exists h', (step X px c). split; [done|].
  split; [by destruct Hl' as (_ & _ & _ & _ & ?)|].
  destruct (is_strict (order c)) eqn:Ho.
  - assert (order c = Some Strict) as Ho'.
    { destruct (order c) as [[]|]; done. }
    destruct (step_strict_foreign c X px Ht Ho' HX Hno) as (Hs & Hr & Hk).
    rewrite Hs in Hi. simpl in Hi. by rewrite app_nil_r in Hi.
  - destruct (step_loose_foreign c X px Ht Ho HX Hno) as (Hs & ->).
    rewrite Hs in Hi. simpl in Hi. by rewrite app_nil_r in Hi.
Qed.

End ForeignClaims.

Lemma foreign_event_resets_strict_only_witness :
  (∃ h' c', emit 2 "x" 9 strict_abc_a = Returned () h' ∧
            objects h' !! 0 = Some c' ∧
            invocations 0 h' = invocations 0 strict_abc_a ∧
            registered c' = "" ∧ sink c' = ∅) ∧
  (∃ h' c', emit 2 "x" 9 loose_abc_a = Returned () h' ∧
            objects h' !! 0 = Some c' ∧
            invocations 0 h' = invocations 0 loose_abc_a ∧
            registered c' = "a" ∧ sink c' = {["a" := 1]}).
Proof.
  split.
  - apply (foreign_event_resets_strict_only 0 (abc_after_a MOnOrderOf)
             strict_abc_a "x" 9 2).
    + split; [reflexivity|]. split; [apply Forall_singleton; reflexivity|].
      split; [split; [vm_compute; lia|apply Forall_singleton; vm_compute; lia]|].
      split; [|reflexivity].
      exists [], []. split; [reflexivity|]. split; apply not_elem_of_nil.
    + reflexivity.
    + split; [discriminate|reflexivity].
    + reflexivity.
    + vm_compute. lia.
  - apply (foreign_event_resets_strict_only 0 (abc_after_a MOn)
             loose_abc_a "x" 9 2).
    + split; [reflexivity|]. split; [apply Forall_singleton; reflexivity|].
      split; [split; [vm_compute; lia|apply Forall_singleton; vm_compute; lia]|].
      split; [|reflexivity].
      exists [], []. split; [reflexivity|]. split; apply not_elem_of_nil.
    + reflexivity.
    + split; [discriminate|reflexivity].
    + reflexivity.
    + vm_compute. lia.
Defined.

(** C3, as stated, fails for LOOSE listeners: after [a], the foreign
    name [x] leaves the matched prefix and the payload of [a] in place,
    and [b], [c] then complete the train with the payload of [a] from
    before [x]. *)
Lemma foreign_event_keeps_loose_progress_counterexample :
  ∃ h' c' h'',
    objects loose_abc_a !! 0 = Some (abc_after_a MOn) ∧
    emit 2 "x" 9 loose_abc_a = Returned () h' ∧
    objects h' !! 0 = Some c' ∧
    registered c' = "a" ∧ sink c' = {["a" := 1]} ∧
    announce_all 2 [("b", 2); ("c", 3)] h' = Returned () h'' ∧
    invocations 0 h'' = [Merged (<["c" := 3]> (<["b" := 2]> {["a" := 1]}))].
Proof.
  eexists. eexists. eexists. split; [reflexivity|].
  split; [vm_compute; reflexivity|]. split; [reflexivity|].
  split; [reflexivity|]. split; [reflexivity|].
  split; [vm_compute; reflexivity|reflexivity].
Qed.

(** C3: why the name announced is a word in the amended statement.
    The name [c] before a blank does not occur in the pattern string
    [a b c]; announced after [a] and [b] it completes the strict train,
    which is called. *)
Lemma padded_name_completes_strict_train :
  Str.includes "a b c" "c " = false ∧
  ∃ h', announce_all 2 [("a", 1); ("b", 2); ("c ", 3)] strict_abc = Returned () h' ∧
        invocations 0 h' =
        [Merged (<["c " := 3]> (<["b" := 2]> {["a" := 1]}))].
Proof.
  split; [reflexivity|].
  eexists. split; [vm_compute; reflexivity|reflexivity].
Qed.

(** C3: why the amended statement asks that the name does not occur
    in the pattern string, which is more than not to be one of the
    names.  For the strict listener on [ab], [c], [d] that has [ab]
    registered, [a] is none of the names and occurs in the pattern
    string: when it is announced the listener is left with [a] for its
    matched prefix and the payload of [a] in its record. *)
Lemma name_within_pattern_not_cleared :
  ("a" ∉ ["ab"; "c"; "d"]) ∧
  ∃ h0 h1 h2 c1 c2,
    onOrderOf (Many ["ab"; "c"; "d"]) None "k1" fresh = Returned (Some "k1") h0 ∧
    emit 2 "ab" 1 h0 = Returned () h1 ∧
    objects h1 !! 0 = Some c1 ∧
    registered c1 = "ab" ∧ sink c1 = {["ab" := 1]} ∧
    emit 2 "a" 9 h1 = Returned () h2 ∧
    objects h2 !! 0 = Some c2 ∧
    registered c2 = "a" ∧ sink c2 = {["a" := 9]}.
Proof.
  split.
  - rewrite !not_elem_of_cons. repeat split; try discriminate.
    apply not_elem_of_nil.
  - eexists. eexists. eexists. eexists. eexists.
    split; [reflexivity|]. split; [vm_compute; reflexivity|].
    split; [reflexivity|]. split; [reflexivity|]. split; [reflexivity|].
    split; [vm_compute; reflexivity|].
    split; [reflexivity|]. split; reflexivity.
Qed.

(** ** Ceilings and the connected flag (C5, C6, C9) *)

Section CeilingClaims.

Context {Payload : Type}.

Implicit Types (c : CallbackObject Payload) (h : Hub Payload).

(** C9: on a new instance with the global ceiling set to 3, three
    register calls return their keys and a fourth throws "Max listener
    limit reached"; in general, with a global ceiling set, a register
    call throws that error exactly when the number of listeners in the
    registry is equal to or above the ceiling, and returns its key
    otherwise. *)
Theorem global_ceiling_enforced :
  (∀ nm id m1 m2 m3 m4 ev1 ev2 ev3 ev4 f1 f2 f3 f4 k1 k2 k3 k4,
     ∃ h0 h1 h2 h3 h4 : Hub Payload,
       limitConnections 3 (create nm id) = Returned () h0 ∧
       register m1 ev1 f1 k1 h0 = Returned (Some k1) h1 ∧
       register m2 ev2 f2 k2 h1 = Returned (Some k2) h2 ∧
       register m3 ev3 f3 k3 h2 = Returned (Some k3) h3 ∧
       register m4 ev4 f4 k4 h3 = Thrown max_listener_limit h4) ∧
  (∀ h m ev f k (ceiling : Z),
     maxListeners h = Some ceiling → ceiling ≠ 0%Z →
     ((ceiling ≤ Z.of_nat (length (registry h)))%Z →
      ∃ h', register m ev f k h = Thrown max_listener_limit h') ∧
     ((Z.of_nat (length (registry h)) < ceiling)%Z →
      ∃ h', register m ev f k h = Returned (Some k) h')).
Proof.
  split.
  - intros.
    set (h0 := set_maxListeners (Some 3%Z) (create (Payload:=Payload) nm id)).
    assert (M0 : maxListeners h0 = Some 3%Z) by done.
    destruct (register_returns m1 ev1 f1 k1 h0)
      as (h1 & ? & E1 & R1 & _ & _ & _ & M1 & _ & A1); [simpl; lia|done|].
    rewrite M0 in M1.
    destruct (register_returns m2 ev2 f2 k2 h1)
      as (h2 & ? & E2 & R2 & _ & _ & _ & M2 & _ & A2); [done| |].
    { rewrite (full_ceiling h1 3 M1) by done. apply bool_decide_eq_false.
      rewrite R1. simpl. lia. }
    rewrite M1 in M2.
    destruct (register_returns m3 ev3 f3 k3 h2)
      as (h3 & ? & E3 & R3 & _ & _ & _ & M3 & _ & A3); [done| |].
    { rewrite (full_ceiling h2 3 M2) by done. apply bool_decide_eq_false.
      rewrite R2, R1. simpl. lia. }
    rewrite M2 in M3.
    exists h0, h1, h2, h3. eexists.
    split; [done|]. split; [done|]. split; [done|]. split; [done|].
    apply register_throws.
    rewrite (full_ceiling h3 3 M3) by done. apply bool_decide_eq_true.
    rewrite R3, R2, R1. simpl. lia.
  - intros h m ev f k ceiling Hm Hc. split; intros Hn.
    + eexists. apply register_throws. rewrite (full_ceiling h ceiling) by done.
      by apply bool_decide_eq_true.
    + destruct (register_spec m ev f k h) as [ms E].
      rewrite (full_ceiling h ceiling), bool_decide_eq_false_2 in E by (done || lia).
      by eexists.
Qed.

(** C5, as amended: a register operation called while the instance
    is disconnected warns "Instance is disconnected" and then goes on
    as on a connected instance: below the global ceiling it makes the
    listener, enters it in the registry and under its key, and returns
    the key. *)
Theorem register_while_disconnected m ev f k h :
  connected h = false → full h = false →
  callbacks h < length (arrays h) →
  ∃ h1 ms, register m ev f k h = Returned (Some k) h1 ∧
           console h1 =
           console h ++ "[LocalSocket]: Instance is disconnected" :: ms ∧
           registry h1 = registry h ++ [length (objects h)] ∧
           keys h1 !! k = Some (length (objects h)) ∧
           objects h1 !! length (objects h) = Some (listener_of m ev f k).
Proof.
  intros Hc Hfull Ha.
  destruct (register_returns m ev f k h Ha Hfull)
    as (h1 & ms & E & R & O & K & W & _).
  exists h1, ms. split; [done|].
  unfold disconnected_warning in W. rewrite Hc in W.
  split; [done|]. split; [done|]. split.
  - rewrite K. apply lookup_insert_eq.
  - rewrite O. by rewrite lookup_app_r, Nat.sub_diag.
Qed.

End CeilingClaims.

Lemma global_ceiling_enforced_witness :
  (∃ h', on (One "d") None "k4"
           (after (on (One "c") None "k3"
              (after (on (One "b") None "k2"
                 (after (on (One "a") None "k1"
                    (after (limitConnections 3 fresh))))))))
         = Thrown max_listener_limit h') ∧
  (∃ h', on (One "c") None "k3"
           (after (on (One "b") None "k2"
              (after (on (One "a") None "k1"
                 (after (limitConnections 3 fresh))))))
         = Returned (Some "k3") h').
Proof.
  split.
  - apply (proj2 (global_ceiling_enforced (Payload:=nat)) _ MOn (One "d") None "k4" 3%Z).
    + reflexivity.
    + discriminate.
    + vm_compute. discriminate.
  - apply (proj2 (global_ceiling_enforced (Payload:=nat)) _ MOn (One "c") None "k3" 3%Z).
    + reflexivity.
    + discriminate.
    + vm_compute. reflexivity.
Defined.

Lemma register_while_disconnected_witness :
  ∃ h1 ms, once (Many ["a"; "b"]) None "k1" unplugged = Returned (Some "k1") h1 ∧
           console h1 =
           console unplugged ++ "[LocalSocket]: Instance is disconnected" :: ms ∧
           registry h1 = registry unplugged ++ [length (objects unplugged)] ∧
           keys h1 !! "k1" = Some (length (objects unplugged)) ∧
           objects h1 !! length (objects unplugged)
           = Some (listener_of MOnce (Many ["a"; "b"]) None "k1").
Proof.
  apply (register_while_disconnected MOnce (Many ["a"; "b"]) None "k1" unplugged).
  - reflexivity.
  - reflexivity.
  - vm_compute. lia.
Defined.

(** C5, as stated, fails: after [disconnect()], [on] returns the key
    and the listener is in the registry and under its key. *)
Lemma register_while_disconnected_counterexample :
  connected unplugged = false ∧
  ∃ h1, on (One "a") None "k1" unplugged = Returned (Some "k1") h1 ∧
        registry h1 = [0] ∧ keys h1 !! "k1" = Some 0 ∧
        objects h1 !! 0 = Some (listener_of MOn (One "a") None "k1").
Proof.
  split; [reflexivity|]. eexists. split; [reflexivity|].
  split; [reflexivity|]. split; reflexivity.
Qed.

(** C6: once the listeners of a pattern have reached the ceiling set
    for it with [setEventMaxListener], a register call for the pattern
    is to fail with "Max listener limit reached for ...".  The code does
    not: with one listener on [a] and the ceiling of [a] set to 1, a
    second register call for [a] returns a key and the listener is
    made. *)
Lemma per_pattern_ceiling_not_enforced :
  ∃ h1 h2 h3 : Hub nat,
    on (One "a") None "k1" fresh = Returned (Some "k1") h1 ∧
    setEventMaxListener "a" 1 h1 = Returned () h2 ∧
    events h2 !! "a" = Some {| Quota.maxListeners := Some 1%Z; Quota.count := 1 |} ∧
    on (One "a") None "k2" h2 = Returned (Some "k2") h3 ∧
    registry h3 = [0; 1] ∧
    events h3 !! "a" = Some {| Quota.maxListeners := Some 1%Z; Quota.count := 2 |}.
Proof.
  eexists. eexists. eexists. split; [reflexivity|]. split; [reflexivity|].
  split; [reflexivity|]. split; [reflexivity|]. split; reflexivity.
Qed.

(** ** Removal, reconnection and reset (C4, C8, C10) *)

Section RemovalClaims.

Context {Payload : Type}.

Implicit Types (c : CallbackObject Payload) (h : Hub Payload).

Lemma registry_assign l h : registry (assign_callbacks l h) = l.
Proof.
  unfold registry. simpl. by rewrite lookup_app_r, Nat.sub_diag.
Qed.

Lemma remove_known k o h :
  k ≠ "" → keys h !! k = Some o →
  ∃ h', remove k h = Returned () h' ∧
        keys h' = keys h ∧ objects h' = objects h ∧
        registry h' =
        filter (fun o' => (objects h !! o') ≫= key ≠ Some k) (registry h).
Proof.
  intros Hne Hk. unfold remove. rewrite Hk.
  destruct k as [|a k]; [done|]. simpl. eexists. split; [done|].
  split; [done|]. split; [done|]. by rewrite registry_assign.
Qed.

(** What [remove] makes of a listener just registered: it leaves the
    registry if the register operation gave it its key, and it stays
    if the operation was [onOrderOf]. *)
Lemma remove_after_register m ev f k h :
  callbacks h < length (arrays h) → full h = false → k ≠ "" →
  ∃ h1 h2, register m ev f k h = Returned (Some k) h1 ∧
           remove k h1 = Returned () h2 ∧
           (length (objects h) ∈ registry h2 ↔ m = MOnOrderOf).
Proof.
  intros Ha Hfull Hne.
  destruct (register_returns m ev f k h Ha Hfull)
    as (h1 & ms & E & R & O & K & _).
  destruct (remove_known k (length (objects h)) h1 Hne)
    as (h2 & E2 & _ & _ & R2).
  { rewrite K. apply lookup_insert_eq. }
  exists h1, h2. split; [done|]. split; [done|].
  rewrite R2, list_elem_of_filter, R, O.
  rewrite lookup_app_r, Nat.sub_diag by done. simpl.
  split.
  - intros [Hk _]. destruct m; simpl in Hk; done.
  - intros ->. split; [done|]. set_solver.
Qed.

(** C8, as amended: [remove(key)] with an unknown key leaves the
    instance as it is; with a known key it leaves the key map as it is,
    so the key is still present afterwards, and filters the listeners
    that carry the key out of the registry. *)
Theorem remove_keeps_key k h :
  (keys h !! k = None → remove k h = Returned () h) ∧
  (∀ o, k ≠ "" → keys h !! k = Some o →
     ∃ h', remove k h = Returned () h' ∧
           keys h' = keys h ∧ keys h' !! k = Some o ∧
           objects h' = objects h ∧
           registry h' =
           filter (fun o' => (objects h !! o') ≫= key ≠ Some k) (registry h)).
Proof.
  split.
  - intros Hk. unfold remove. rewrite Hk. by destruct (Str.truthy k).
  - intros o Hne Hk. destruct (remove_known k o h Hne Hk) as (h' & ? & ? & ? & ?).
    exists h'. split; [done|]. split; [done|]. split; [congruence|done].
Qed.

(** C10, as amended: [drop()] clears the registry, the key map and
    the quota table, whatever they hold, and keeps the global ceiling;
    the per-pattern ceilings are fields of the quota entries and go
    with the quota table. *)
Theorem drop_clears_all h :
  ∃ h', drop h = Returned () h' ∧
        registry h' = [] ∧ keys h' = ∅ ∧ events h' = ∅ ∧
        (∀ e, Quota.maxListeners <$> events h' !! e = None) ∧
        maxListeners h' = maxListeners h.
Proof.
  eexists. split; [done|]. split; [|split; [done|split; [done|split; [|done]]]].
  - unfold registry. simpl. by rewrite lookup_app_r, Nat.sub_diag.
  - intros e. simpl. by rewrite lookup_empty.
Qed.

End RemovalClaims.

Lemma remove_keeps_key_witness :
  remove "k9" strict_abc = Returned () strict_abc ∧
  ∃ h', remove "k1" loose_abc = Returned () h' ∧
        keys h' = keys loose_abc ∧ keys h' !! "k1" = Some 0 ∧
        objects h' = objects loose_abc ∧
        registry h' =
        filter (fun o' => (objects loose_abc !! o') ≫= key ≠ Some "k1")
          (registry loose_abc).
Proof.
  split.
  - apply (proj1 (remove_keeps_key "k9" strict_abc)). reflexivity.
  - apply (proj2 (remove_keeps_key "k1" loose_abc) 0).
    + discriminate.
    + reflexivity.
Defined.

(** C8, as stated, fails: after [remove] of a known key, the key is
    still in the key map (while its listener has left the registry). *)
Lemma remove_keeps_key_counterexample :
  keys loose_abc !! "k1" = Some 0 ∧ registry loose_abc = [0] ∧
  ∃ h', remove "k1" loose_abc = Returned () h' ∧
        keys h' !! "k1" = Some 0 ∧ registry h' = [].
Proof.
  split; [reflexivity|]. split; [reflexivity|].
  eexists. split; [reflexivity|]. split; reflexivity.
Qed.

(** C10, as stated, fails: a per-pattern ceiling set before [drop()]
    is gone after it (and the next registration of the pattern makes
    an entry without a ceiling). *)
Lemma drop_forgets_pattern_ceiling_counterexample :
  Quota.maxListeners <$> events capped_a !! "a" = Some (Some 2%Z) ∧
  ∃ h' h'', drop capped_a = Returned () h' ∧
            events h' !! "a" = None ∧
            on (One "a") None "k2" h' = Returned (Some "k2") h'' ∧
            Quota.maxListeners <$> events h'' !! "a" = Some None.
Proof.
  split; [reflexivity|]. eexists. eexists.
  split; [reflexivity|]. split; [reflexivity|]. split; reflexivity.
Qed.

(** C4: after [remove(key)] no announce is to call the listener of
    [key], whichever register operation gave the key.  The code does
    not do so for [onOrderOf], whose listener object has no [key]:
    after [remove] of its key the listener is still in the registry
    and is called. *)
Lemma removed_strict_listener_still_called :
  ∃ h1 h2 h3 : Hub nat,
    onOrderOf (Many ["a"; "b"]) None "k1" fresh = Returned (Some "k1") h1 ∧
    remove "k1" h1 = Returned () h2 ∧
    registry h2 = [0] ∧
    announce_all 2 [("a", 1); ("b", 2)] h2 = Returned () h3 ∧
    invocations 0 h3 = [Merged (<["b" := 2]> {["a" := 1]})].
Proof.
  eexists. eexists. eexists. split; [reflexivity|]. split; [reflexivity|].
  split; [reflexivity|]. split; [vm_compute; reflexivity|reflexivity].
Qed.

(** With [on], whose listener object has its [key], the listener is
    silent after [remove] and is called again after [reOn]. *)
Lemma removed_loose_listener_silent_until_reconnected :
  ∃ h1 h2 h3 h4 h5 : Hub nat,
    on (Many ["a"; "b"]) None "k1" fresh = Returned (Some "k1") h1 ∧
    remove "k1" h1 = Returned () h2 ∧
    announce_all 2 [("a", 1); ("b", 2)] h2 = Returned () h3 ∧
    invocations 0 h3 = [] ∧
    reOn "k1" h3 = Returned () h4 ∧
    announce_all 2 [("a", 1); ("b", 2)] h4 = Returned () h5 ∧
    invocations 0 h5 = [Merged (<["b" := 2]> {["a" := 1]})].
Proof.
  do 5 eexists. split; [reflexivity|]. split; [reflexivity|].
  split; [vm_compute; reflexivity|]. split; [reflexivity|].
  split; [reflexivity|]. split; [vm_compute; reflexivity|reflexivity].
Qed.

(** ** The listeners of one pass (C7) *)

Section PassClaims.

Context {Payload : Type}.

Implicit Types (c : CallbackObject Payload) (h : Hub Payload).
Implicit Types (args : Payload).

Lemma advance_cb m e args c : cb (advance m e args c) = cb c.
Proof.
  unfold advance. destruct (negb m && isTrainOfEvent c).
  - destruct (Str.includes (event c) e); simpl;
      destruct (Str.truthy (registered c)); simpl; by repeat case_match.
  - by destruct (isTrainOfEvent c).
Qed.

Lemma before_call_cb c : cb (before_call c) = cb c.
Proof. unfold before_call. by destruct (callType c). Qed.

Lemma after_call_cb c : cb (after_call c) = cb c.
Proof. unfold after_call. by destruct (callType c). Qed.

Lemma modify_docile o f h :
  (∀ c, cb (f c) = cb c) → docile h → docile (modify o f h).
Proof.
  intros Hf Hd. unfold docile. simpl. apply Forall_alter; [done|].
  intros c _. unfold tame. by rewrite Hf.
Qed.

(** A call that registers nothing returns, makes no listener object
    and changes no array that exists. *)
Lemma perform_tame x h :
  registers x = false →
  ∃ h', perform x h = Returned () h' ∧
        objects h' = objects h ∧ arrays h `prefix_of` arrays h'.
Proof.
  destruct x as [m ev f k|k|k|]; [done|..]; intros _; simpl.
  - unfold remove. destruct (Str.truthy k); simpl; [|by eexists].
    destruct (keys h !! k); [|by eexists].
    eexists. split; [done|]. split; [done|]. by eexists.
  - unfold reOn. destruct (Str.truthy k); simpl; [|by eexists].
    destruct (keys h !! k); [|by eexists].
    eexists. split; [done|]. split; [done|]. by eexists.
  - eexists. split; [done|]. split; [done|]. by eexists.
Qed.

Lemma run_tame b h :
  Forall (fun x => registers x = false) b →
  ∃ h', run b h = Returned () h' ∧
        objects h' = objects h ∧ arrays h `prefix_of` arrays h'.
Proof.
  intros Hb. revert h. induction Hb as [|x b Hx _ IH]; intros h.
  - by exists h.
  - simpl. unfold bind.
    destruct (perform_tame x h Hx) as (h1 & -> & O1 & A1).
    destruct (IH h1) as (h2 & -> & O2 & A2).
    exists h2. split; [done|]. split; [congruence|by etrans].
Qed.

(** The loop body on an instance whose callbacks register nothing. *)
Lemma visit_tame o e args h :
  o < length (objects h) → docile h →
  ∃ h', visit o e args h = Returned () h' ∧
        length (objects h') = length (objects h) ∧
        docile h' ∧ arrays h `prefix_of` arrays h'.
Proof.
  intros [c Hc]%lookup_lt_is_Some_2 Hd. unfold visit. rewrite Hc.
  unfold bind.
  destruct (fires (eventMatch c e) (invalidate (eventMatch c e) e c)).
  - set (h1 := enter o _ (modify o before_call (modify o _ h))).
    assert (Hd1 : docile h1).
    { apply (modify_docile o before_call); [apply before_call_cb|].
      apply modify_docile; [apply invalidate_cb|done]. }
    destruct (run_tame (body (cb (invalidate (eventMatch c e) e c))) h1)
      as (h2 & -> & O2 & A2).
    { rewrite invalidate_cb. by eapply Forall_lookup_1 in Hd. }
    eexists. split; [done|]. simpl. rewrite !length_alter, O2. simpl.
    rewrite !length_alter. split; [done|]. split; [|done].
    apply (modify_docile o (advance _ e args)); [apply advance_cb|].
    apply (modify_docile o after_call); [apply after_call_cb|].
    unfold docile. by rewrite O2.
  - eexists. split; [done|]. simpl. rewrite !length_alter.
    split; [done|]. split; [|done].
    apply (modify_docile o (advance _ e args)); [apply advance_cb|].
    apply modify_docile; [apply invalidate_cb|done].
Qed.

(** The loop of [emit] on an instance whose callbacks register
    nothing. *)
Lemma iterate_tame fuel arr i e args h l :
  docile h → arrays h !! arr = Some l →
  Forall (fun o => o < length (objects h)) l →
  length l - i < fuel →
  ∃ h', iterate fuel arr i e args h = Returned (skipn i l) h'.
Proof.
  revert i h. induction fuel as [|fuel IH]; intros i h Hd Harr Hl Hf; [lia|].
  simpl. rewrite Harr. simpl. destruct (l !! i) as [o|] eqn:Hi.
  - rewrite (drop_S _ _ _ Hi).
    assert (Ho : o < length (objects h)).
    { eapply Forall_lookup_1 in Hl; [|done]. done. }
    unfold bind at 1.
    destruct (visit_tame o e args h Ho Hd) as (h1 & -> & O1 & D1 & A1).
    unfold bind.
    destruct (IH (S i) h1) as (h2 & ->); [done| | | |by eexists].
    + by eapply prefix_lookup_Some.
    + by rewrite O1.
    + apply lookup_lt_Some in Hi. lia.
  - apply lookup_ge_None_1 in Hi. rewrite drop_ge by done. by eexists.
Qed.

(** C7, as amended: on a connected instance whose callbacks register
    no listener (they may remove, reconnect and drop), the listeners
    evaluated in one announce are exactly those of the registry at the
    start of the call, and the call returns. *)
Theorem pass_over_registry_at_start fuel e args h :
  connected h = true → well_formed h → docile h →
  length (registry h) < fuel →
  evaluated fuel e args h = Some (registry h) ∧
  ∃ h', emit fuel e args h = Returned () h'.
Proof.
  intros Hc [Ha Hl] Hd Hf.
  apply lookup_lt_is_Some_2 in Ha as [l Harr].
  assert (Hr : registry h = l) by (unfold registry; by rewrite Harr).
  rewrite Hr in *.
  destruct (iterate_tame fuel (callbacks h) 0 e args h l) as (h' & E);
    [done|done|done|lia|].
  rewrite drop_0 in E. split.
  - unfold evaluated. by rewrite E.
  - unfold emit. rewrite Hc. simpl. unfold bind. rewrite E. by eexists.
Qed.

End PassClaims.

Lemma pass_over_registry_at_start_witness :
  evaluated 3 "a" 7 remover = Some (registry remover) ∧
  ∃ h', emit 3 "a" 7 remover = Returned () h'.
Proof.
  apply (pass_over_registry_at_start 3 "a" 7 remover).
  - reflexivity.
  - split; [vm_compute; lia|]. vm_compute. repeat constructor.
  - vm_compute. repeat constructor.
  - vm_compute. lia.
Defined.

(** C7, as stated, fails: the callback of the only listener in the
    registry registers a second listener during the announce, and the
    same pass evaluates and calls the second one as well. *)
Lemma pass_sees_new_listener_counterexample :
  connected recruiter = true ∧ registry recruiter = [0] ∧
  evaluated 3 "a" 7 recruiter = Some [0; 1] ∧
  ∃ h', emit 3 "a" 7 recruiter = Returned () h' ∧
        calls h' = [(0, Plain 7); (1, Plain 7)].
Proof.
  split; [reflexivity|]. split; [reflexivity|].
  split; [vm_compute; reflexivity|].
  eexists. split; [vm_compute; reflexivity|reflexivity].
Qed.

(** ** Rows of announces *)

Section Rows.

Context {Payload : Type}.

Implicit Types (c : CallbackObject Payload) (h : Hub Payload).
Implicit Types (args : Payload) (l : list (string * Payload)).

Lemma steps_app l1 l2 c : steps (l1 ++ l2) c = steps l2 (steps l1 c).
Proof.
  revert c. induction l1 as [|[e a] l1 IH]; intros c; [done|]. simpl. apply IH.
Qed.

Lemma shots_app l1 l2 c :
  shots (l1 ++ l2) c = shots l1 c ++ shots l2 (steps l1 c).
Proof.
  revert c. induction l1 as [|[e a] l1 IH]; intros c; [done|].
  simpl. by rewrite IH, app_assoc.
Qed.

(** A row of announces, seen from a listener registered once. *)
Lemma announce_all_listening fuel l o c h :
  listening o c h → length (registry h) < fuel →
  ∃ h', announce_all fuel l h = Returned () h' ∧
        listening o (steps l c) h' ∧
        length (registry h') = length (registry h) ∧
        keys h' = keys h ∧ connectionId h' = connectionId h ∧
        invocations o h' = invocations o h ++ shots l c.
Proof.
  revert c h. induction l as [|[e a] l IH]; intros c h Hl Hf.
  - exists h. simpl. by rewrite app_nil_r.
  - destruct (emit_listening fuel e a o c h Hl Hf) as (h1 & E1 & Hl1 & Hn1 & Hi1).
    destruct (IH (step e a c) h1 Hl1) as (h2 & E2 & Hl2 & Hn2 & Hk2 & Hc2 & Hi2);
      [lia|].
    exists h2. simpl. unfold bind. rewrite E1.
    split; [done|]. split; [done|]. split; [lia|].
    assert (keys h1 = keys h ∧ connectionId h1 = connectionId h) as [Hk1 Hc1].
    { destruct Hl as (Hc & Hq & Hwf & _). rewrite emit_inert in E1 by done.
      by injection E1 as <-. }
    split; [congruence|]. split; [congruence|].
    by rewrite Hi2, Hi1, app_assoc.
Qed.

(** *** Calls and the count of calls *)

Lemma invalidate_fields m e c :
  called (invalidate m e c) = called c ∧
  callsCount (invalidate m e c) = callsCount c.
Proof. unfold invalidate. by repeat case_match. Qed.

Lemma advance_fields m e args c :
  called (advance m e args c) = called c ∧
  callsCount (advance m e args c) = callsCount c.
Proof.
  unfold advance. destruct (negb m && isTrainOfEvent c).
  - destruct (Str.includes (event c) e); simpl;
      destruct (Str.truthy (registered c)); simpl; by repeat case_match.
  - by destruct (isTrainOfEvent c).
Qed.

Lemma step_callsCount e args c :
  callsCount (step e args c) =
  callsCount c + length (option_list (shot e args c)).
Proof.
  unfold step, shot.
  destruct (invalidate_fields (eventMatch c e) e c) as [_ Hn].
  destruct (fires _ _).
  - destruct (advance_fields (eventMatch c e) e args
                (after_call (before_call (invalidate (eventMatch c e) e c))))
      as [_ ->].
    unfold after_call, before_call.
    destruct (callType (invalidate (eventMatch c e) e c)) eqn:E;
      simpl; rewrite ?E; simpl; lia.
  - destruct (advance_fields (eventMatch c e) e args
                (invalidate (eventMatch c e) e c)) as [_ ->].
    simpl. lia.
Qed.

Lemma steps_callsCount l c :
  callsCount (steps l c) = callsCount c + length (shots l c).
Proof.
  revert c. induction l as [|[e a] l IH]; intros c; simpl; [lia|].
  rewrite IH, step_callsCount, length_app. lia.
Qed.

Lemma step_once e args c :
  callType c = Once →
  (called c = true → shot e args c = None) ∧
  (called (step e args c) = called c || bool_decide (shot e args c ≠ None)).
Proof.
  intros Ho. unfold step, shot, fires.
  destruct (invalidate_fields (eventMatch c e) e c) as [Hc _].
  assert (Ht : callType (invalidate (eventMatch c e) e c) = Once).
  { unfold invalidate. by repeat case_match. }
  rewrite Ht, Hc. split.
  - intros ->. by rewrite andb_false_r.
  - destruct (eventMatch c e && callable (invalidate (eventMatch c e) e c)
              && negb (called c)) eqn:Hf.
    + destruct (advance_fields (eventMatch c e) e args
                  (after_call (before_call (invalidate (eventMatch c e) e c))))
        as [-> _].
      unfold after_call, before_call. rewrite Ht. simpl. rewrite Ht.
      simpl. by rewrite orb_true_r.
    + destruct (advance_fields (eventMatch c e) e args
                  (invalidate (eventMatch c e) e c)) as [-> _].
      rewrite Hc. simpl. by rewrite orb_false_r.
Qed.

(** A one-shot listener is called at most once along a row, and not at
    all once it was called. *)
Lemma shots_once l c :
  callType c = Once →
  length (shots l c) ≤ 1 ∧ (called c = true → shots l c = []).
Proof.
  revert c. induction l as [|[e a] l IH]; intros c Ho; simpl; [split; [lia|done]|].
  destruct (step_once e a c Ho) as [H1 H2].
  destruct (step_static e a c) as (_ & _ & _ & _ & Hct & _).
  destruct (IH (step e a c)) as [IH1 IH2]; [congruence|].
  split.
  - destruct (shot e a c) eqn:Hs; simpl; [|done].
    rewrite IH2; [simpl; lia|].
    rewrite H2. rewrite bool_decide_eq_true_2 by done. apply orb_true_r.
  - intros Hc. rewrite (H1 Hc). simpl. apply IH2.
    rewrite H2, Hc. done.
Qed.

End Rows.

(** ** Rounds of a train *)

Section Rounds.

Context {Payload : Type}.

Implicit Types (c : CallbackObject Payload) (h : Hub Payload).
Implicit Types (args : Payload) (l : list (string * Payload)).
Implicit Types (segs : list (list (string * Payload) * (string * Payload))).

Lemma static_refl c : static c c.
Proof. by unfold static. Qed.

Lemma steps_static l c : static c (steps l c).
Proof.
  revert c. induction l as [|[e a] l IH]; intros c; [apply static_refl|].
  simpl. eapply static_trans; [apply step_static|apply IH].
Qed.

(** The last name of the pattern arrives at a listener that may be
    called. *)
Lemma step_complete_any ord pat ws c e args :
  train_state ord pat ws c → Forall word pat →
  pat = ws ++ [e] → callable c = true →
  callType c = On ∨ called c = false →
  shot e args c = Some (Merged (<[e := args]> (sink c))) ∧
  train_state ord pat [] (step e args c) ∧
  sink (step e args c) = ∅ ∧
  callsCount (step e args c) = S (callsCount c) ∧
  called (step e args c) = match callType c with Once => true | On => called c end.
Proof.
  intros Hst Hpat Hp Hc Hready.
  assert (Forall word ws ∧ word e) as [Hws Hw].
  { rewrite Hp in Hpat. apply Forall_app in Hpat as [? Hpat].
    by apply Forall_cons in Hpat as [? _]. }
  assert (Hm : eventMatch c e = true).
  { erewrite eventMatch_words by done. by apply bool_decide_eq_true. }
  destruct (step_static e args c) as (Hev & _ & _ & _ & _ & Htr & Hor).
  destruct Hst as (Ht & Ho & He & Hr).
  assert (Hinv : invalidate true e c = c).
  { unfold invalidate. rewrite andb_false_r. by rewrite andb_false_r. }
  assert (Hf : fires true c = true).
  { unfold fires. rewrite Hc. simpl. destruct (callType c); [done|].
    destruct Hready as [?| ->]; done. }
  assert (Hshot : shot e args c = Some (Merged (<[e := args]> (sink c)))).
  { unfold shot. rewrite Hm, Hinv, Hf. unfold argument. by rewrite Ht. }
  split; [done|].
  assert (Hstep : step e args c =
                  set_registered "" (set_sink ∅ (after_call (before_call c)))).
  { unfold step. rewrite Hm, Hinv, Hf. apply advance_true_train.
    unfold after_call, before_call.
    destruct (callType c) eqn:E; simpl; rewrite ?E; done. }
  split; [|split; [|split]].
  - unfold train_state. by rewrite Htr, Hor, Hev, Hstep.
  - by rewrite Hstep.
  - rewrite step_callsCount, Hshot. simpl. lia.
  - rewrite Hstep. unfold after_call, before_call.
    destruct (callType c) eqn:E; simpl; rewrite ?E; done.
Qed.

(** Names foreign to the pattern leave a train that is not strict as
    it is. *)
Lemma steps_foreign l c :
  isTrainOfEvent c = true → is_strict (order c) = false →
  Forall (fun x => word x.1 ∧ Str.includes (event c) x.1 = false) l →
  steps l c = c ∧ shots l c = [].
Proof.
  intros Ht Ho Hl. induction Hl as [|[e a] l [Hw Hf] _ IH]; [done|].
  simpl in *. destruct (step_loose_foreign c e a Ht Ho Hw Hf) as [-> ->].
  by destruct IH as [-> ->].
Qed.

(** One round: the names of the pattern, each possibly after
    strangers if the train is loose. *)
Lemma steps_round ord pat segs ws c :
  train_state ord pat ws c → callable c = true →
  callType c = On ∨ called c = false →
  Forall word pat → pat = ws ++ (segs.*2).*1 → segs ≠ [] →
  Forall (fun s => Forall (fun x => foreign pat x.1) s.1) segs →
  (ord = Strict → Forall (fun s => s.1 = []) segs) →
  shots (with_strangers segs) c = [Merged (merge (sink c) segs.*2)] ∧
  train_state ord pat [] (steps (with_strangers segs) c) ∧
  sink (steps (with_strangers segs) c) = ∅ ∧
  callsCount (steps (with_strangers segs) c) = S (callsCount c) ∧
  called (steps (with_strangers segs) c) =
  match callType c with Once => true | On => called c end.
Proof.
  revert ws c. induction segs as [|[xs [e a]] segs IH];
    intros ws c Hst Hc Hready Hpat Hp Hne Hfor Hstrict; [done|].
  apply Forall_cons in Hfor as [Hxs Hfor]. simpl in Hxs.
  assert (Hxs' : steps xs c = c ∧ shots xs c = []).
  { destruct ord.
    - specialize (Hstrict eq_refl). apply Forall_cons in Hstrict as [Hnil _].
      simpl in Hnil. by subst xs.
    - destruct Hst as (Ht & Ho & He & _). apply steps_foreign; [done| |].
      + by rewrite Ho.
      + eapply Forall_impl; [exact Hxs|]. intros x [? ?]. by rewrite He. }
  destruct Hxs' as [Sxs Qxs].
  assert (Hrest : ord = Strict → Forall (fun s => s.1 = []) segs).
  { intros Hs. specialize (Hstrict Hs). by apply Forall_cons in Hstrict as [_ ?]. }
  change (with_strangers ((xs, (e, a)) :: segs))
    with ((xs ++ [(e, a)]) ++ with_strangers segs).
  rewrite !shots_app, !steps_app, Sxs, Qxs. simpl.
  destruct (decide (segs = [])) as [->|Hsegs].
  - simpl in *. rewrite !app_nil_r.
    destruct (step_complete_any ord pat ws c e a Hst Hpat Hp Hc Hready)
      as (-> & ? & ? & ? & ?).
    done.
  - simpl in Hp.
    destruct (step_extend ord pat ws ((segs.*2).*1) c e a Hst Hpat Hp)
      as [-> Hstep].
    { by destruct segs. }
    rewrite Hstep. simpl.
    set (c1 := set_registered (Str.join " " (ws ++ [e]))
                 (set_sink (<[e := a]> (sink c)) c)).
    destruct (IH (ws ++ [e]) c1) as (-> & ? & ? & ? & ?); try done.
    + by eapply train_state_progress.
    + by rewrite <- app_assoc.
Qed.

End Rounds.

(** ** Further properties of trains and one-shot listeners *)

Section TrainProperties.

Context {Payload : Type}.

Implicit Types (c : CallbackObject Payload) (h : Hub Payload).
Implicit Types (args : Payload) (l : list (string * Payload)).
Implicit Types (segs : list (list (string * Payload) * (string * Payload))).

Lemma merge_lookup l (m : gmap string Payload) e a :
  NoDup l.*1 → (e, a) ∈ l → merge m l !! e = Some a.
Proof.
  revert m. induction l as [|[e' a'] l IH]; intros m Hnd Hin.
  { by apply elem_of_nil in Hin. }
  simpl in Hnd. apply NoDup_cons in Hnd as [Hnot Hnd].
  apply elem_of_cons in Hin as [Heq|Hin].
  - injection Heq as -> ->. unfold merge. simpl.
    assert (Hkeep : ∀ l' (m' : gmap string Payload),
              e' ∉ l'.*1 → m' !! e' = Some a' →
              foldl (fun m x => <[x.1 := x.2]> m) m' l' !! e' = Some a').
    { clear. induction l' as [|[e2 a2] l' IH]; intros m' Hn Hm; [done|].
      simpl in *. apply not_elem_of_cons in Hn as [Hne Hn].
      apply IH; [done|]. by rewrite lookup_insert_ne. }
    apply Hkeep; [done|]. apply lookup_insert_eq.
  - unfold merge. simpl. by apply IH.
Qed.

Lemma steps_rounds ord pat (rounds : list (list (list (string * Payload) * (string * Payload)))) c :
  train_state ord pat [] c → sink c = ∅ →
  callable c = true → callType c = On →
  Forall word pat → pat ≠ [] →
  Forall (round_of ord pat) rounds →
  shots (flat_map with_strangers rounds) c
  = (fun segs => Merged (merge ∅ segs.*2)) <$> rounds ∧
  train_state ord pat [] (steps (flat_map with_strangers rounds) c) ∧
  sink (steps (flat_map with_strangers rounds) c) = ∅ ∧
  callsCount (steps (flat_map with_strangers rounds) c)
  = callsCount c + length rounds.
Proof.
  intros Hst Hs Hc Hon Hpat Hne Hr. revert c Hst Hs Hc Hon.
  induction Hr as [|segs rounds (Hn & Hfor & Hstrict) _ IH];
    intros c Hst Hs Hc Hon.
  { simpl. split; [done|]. split; [done|]. split; [done|lia]. }
  simpl. rewrite shots_app, steps_app.
  destruct (steps_round ord pat segs [] c) as (-> & Hst1 & Hs1 & Hn1 & _);
    [done|done|by left|done|by rewrite Hn| |done|done|].
  { intros ->. by rewrite <- Hn in Hne. }
  destruct (steps_static (with_strangers segs) c) as (_ & _ & Hca & _ & Hct & _).
  destruct (IH (steps (with_strangers segs) c)) as (-> & ? & ? & ->);
    [done|done|congruence|congruence|].
  rewrite Hs. split; [done|]. split; [done|]. split; [done|]. simpl. lia.
Qed.

(** X1: a persistent train of any length whose names are announced
    round after round in the order of its pattern, for a loose train
    each name possibly after names foreign to the pattern, is called
    once per round, at the last name of the round, with the payloads
    of that round only; its count of calls goes up by the number of
    rounds.  The instance is connected and its callbacks do not call
    it; the train stands once in the registry and has no progress; the
    names of the pattern, of which there is one at least, and the
    foreign names are non-empty words without white space. *)
Theorem persistent_train_called_once_per_round
    ord o c h fuel pat
    (rounds : list (list (list (string * Payload) * (string * Payload)))) :
  listening o c h → length (registry h) < fuel →
  train_state ord pat [] c → sink c = ∅ →
  callable c = true → callType c = On →
  Forall word pat → pat ≠ [] →
  Forall (round_of ord pat) rounds →
  ∃ h' c', announce_all fuel (flat_map with_strangers rounds) h = Returned () h' ∧
           invocations o h' =
           invocations o h ++ ((fun segs => Merged (merge ∅ segs.*2)) <$> rounds) ∧
           objects h' !! o = Some c' ∧
           callsCount c' = callsCount c + length rounds ∧
           (NoDup pat →
            ∀ segs e a, segs ∈ rounds → (e, a) ∈ segs.*2 →
                        merge ∅ segs.*2 !! e = Some a).
Proof.
  intros Hl Hf Hst Hs Hc Hon Hpat Hne Hr.
  destruct (announce_all_listening fuel (flat_map with_strangers rounds) o c h Hl Hf)
    as (h' & E & Hl' & _ & _ & _ & Hi).
  destruct (steps_rounds ord pat rounds c) as (Hsh & _ & _ & Hn); [done..|].
  exists h', (steps (flat_map with_strangers rounds) c).
  split; [done|]. split; [by rewrite Hi, Hsh|].
  split; [by destruct Hl' as (_ & _ & _ & _ & ?)|]. split; [done|].
  intros Hnd segs e a Hin Hea. apply merge_lookup; [|done].
  eapply Forall_forall in Hr; [|exact Hin]. destruct Hr as (-> & _). done.
Qed.

(** A strict train is called along a row of words only if its pattern
    stands in the row of what was announced. *)
Lemma shots_strict_run pat l ws hist c :
  train_state Strict pat ws c →
  Forall word pat → Forall word ws → Forall word l.*1 →
  ws `suffix_of` hist → shots l c ≠ [] → run_of pat (hist ++ l.*1).
Proof.
  revert ws hist c. induction l as [|[e a] l IH];
    intros ws hist c Hst Hpat Hws Hl Hsuf Hsh; [done|].
  simpl in Hl. apply Forall_cons in Hl as [Hw Hl].
  destruct (step_strict_words pat ws hist c e a Hst Hpat Hws Hw Hsuf)
    as (Hfire & ws' & Hst' & Hws' & Hsuf').
  simpl in Hsh. destruct (shot e a c) eqn:Hs.
  - destruct Hfire as [k Hk]; [done|]. exists k, l.*1. simpl.
    rewrite (cons_middle e hist), app_assoc, Hk. by rewrite <- app_assoc.
  - simpl in Hsh. simpl. rewrite (cons_middle e hist), app_assoc.
    by eapply IH.
Qed.

(** X2: a strict train, persistent or one-shot, that has nothing
    registered is not called along a row of announced words unless the
    names of its pattern stand in that row one after the other.  The
    instance is connected and its callbacks do not call it; the train
    stands once in the registry; the names of the pattern and the
    names announced are non-empty words without white space. *)
Theorem strict_train_needs_consecutive_run o c h fuel pat l :
  listening o c h → length (registry h) < fuel →
  train_state Strict pat [] c →
  Forall word pat → Forall word l.*1 →
  ¬ run_of pat l.*1 →
  ∃ h', announce_all fuel l h = Returned () h' ∧
        invocations o h' = invocations o h.
Proof.
  intros Hl Hf Hst Hpat Hw Hrun.
  destruct (announce_all_listening fuel l o c h Hl Hf)
    as (h' & E & _ & _ & _ & _ & Hi).
  exists h'. split; [done|].
  destruct (shots l c) eqn:Hs; [by rewrite Hi, app_nil_r|].
  destruct Hrun.
  apply (shots_strict_run pat l [] [] c); [done|done|done|done|done|].
  by rewrite Hs.
Qed.


(** X4: a one-shot train is called at the end of the first round of
    its pattern, with the payloads of that round, and whatever is
    announced after that does not call it again.  The instance is
    connected and its callbacks do not call it; the train stands once
    in the registry, has no progress and was not called yet; the names
    of the pattern, of which there is one at least, and the foreign
    names of the round are non-empty words without white space. *)
Theorem one_shot_train_first_round_only o c h fuel ord pat segs l :
  listening o c h → length (registry h) < fuel →
  train_state ord pat [] c → sink c = ∅ →
  callable c = true → callType c = Once → called c = false →
  Forall word pat → pat ≠ [] → round_of ord pat segs →
  ∃ h', announce_all fuel (with_strangers segs ++ l) h = Returned () h' ∧
        invocations o h' = invocations o h ++ [Merged (merge ∅ segs.*2)].
Proof.
  intros Hl Hf Hst Hs Hc Ho Hcalled Hpat Hne (Hn & Hfor & Hstrict).
  destruct (announce_all_listening fuel (with_strangers segs ++ l) o c h Hl Hf)
    as (h' & E & _ & _ & _ & _ & Hi).
  exists h'. split; [done|]. rewrite Hi, shots_app.
  destruct (steps_round ord pat segs [] c) as (-> & _ & _ & _ & Hca);
    [done|done|by right|done|by rewrite Hn| |done|done|].
  { intros ->. by rewrite <- Hn in Hne. }
  rewrite Ho in Hca.
  destruct (steps_static (with_strangers segs) c) as (_ & _ & _ & _ & Hct & _).
  destruct (shots_once l (steps (with_strangers segs) c)) as [_ Hno];
    [congruence|].
  by rewrite Hno, Hs.
Qed.

(** X5: on a connected instance whose callbacks do not call it, so
    that none of them throws, the count of calls that a listener
    standing once in the registry keeps goes up along any row of
    announces by the number of calls of its callback. *)
Theorem calls_are_counted o c h fuel l :
  listening o c h → length (registry h) < fuel →
  ∃ h' c', announce_all fuel l h = Returned () h' ∧
           objects h' !! o = Some c' ∧
           callsCount c' + length (invocations o h)
           = callsCount c + length (invocations o h').
Proof.
  intros Hl Hf.
  destruct (announce_all_listening fuel l o c h Hl Hf)
    as (h' & E & Hl' & _ & _ & _ & Hi).
  exists h', (steps l c). split; [done|].
  split; [by destruct Hl' as (_ & _ & _ & _ & ?)|].
  rewrite Hi, length_app, steps_callsCount. lia.
Qed.

End TrainProperties.

(** A listener registered on a new instance is listening. *)
Lemma listening_with_listener m ev :
  listening 0 (listener_of m ev None "k1") (with_listener m ev).
Proof.
  destruct (register_spec (Payload:=nat) m ev None "k1" fresh) as [ms E].
  change (full fresh) with false in E. cbv iota in E.
  unfold with_listener. rewrite E.
  apply (register_listening m ev None "k1" fresh); [done| | |done|done].
  - apply Forall_nil. exact I.
  - split; [simpl; lia|apply Forall_nil; exact I].
Qed.

Ltac words :=
  repeat match goal with
         | |- Forall _ [] => apply Forall_nil; exact I
         | |- Forall _ (_ :: _) => apply Forall_cons; split
         | |- word _ => split; [discriminate|reflexivity]
         | |- foreign _ _ => split; [split; [discriminate|reflexivity]|reflexivity]
         | |- _ => progress cbv beta delta [round_abc round_abc_stranger fst snd]
         | |- _ => progress simpl
         end.

Lemma persistent_train_called_once_per_round_witness :
  ∃ h' c',
    announce_all 2
      (flat_map with_strangers [round_abc_stranger 1 2 3; round_abc 4 5 6])
      (with_listener MOn (Many ["a"; "b"; "c"])) = Returned () h' ∧
    invocations 0 h' =
    invocations 0 (with_listener MOn (Many ["a"; "b"; "c"]))
    ++ ((fun segs => Merged (merge ∅ segs.*2))
          <$> [round_abc_stranger 1 2 3; round_abc 4 5 6]) ∧
    objects h' !! 0 = Some c' ∧
    callsCount c'
    = callsCount (listener_of (Payload:=nat) MOn (Many ["a"; "b"; "c"]) None "k1")
      + length [round_abc_stranger 1 2 3; round_abc 4 5 6] ∧
    (NoDup ["a"; "b"; "c"] →
     ∀ segs e a, segs ∈ [round_abc_stranger 1 2 3; round_abc 4 5 6] →
                 (e, a) ∈ segs.*2 → merge ∅ segs.*2 !! e = Some a).
Proof.
  apply (persistent_train_called_once_per_round Loose 0
           (listener_of MOn (Many ["a"; "b"; "c"]) None "k1")
           (with_listener MOn (Many ["a"; "b"; "c"])) 2 ["a"; "b"; "c"]).
  - apply listening_with_listener.
  - vm_compute. lia.
  - repeat split.
  - reflexivity.
  - reflexivity.
  - reflexivity.
  - words.
  - discriminate.
  - apply Forall_cons. split; [|apply Forall_cons; split; [|apply Forall_nil; exact I]].
    + split; [reflexivity|]. split; [words|discriminate].
    + split; [reflexivity|]. split; [words|discriminate].
Defined.

Lemma strict_train_needs_consecutive_run_witness :
  ∃ h', announce_all 2 [("a", 1); ("b", 2); ("a", 3); ("c", 4); ("b", 5)]
          (with_listener MOnceOrderOf (Many ["a"; "b"; "c"])) = Returned () h' ∧
        invocations 0 h' =
        invocations 0 (with_listener MOnceOrderOf (Many ["a"; "b"; "c"])).
Proof.
  apply (strict_train_needs_consecutive_run 0
           (listener_of MOnceOrderOf (Many ["a"; "b"; "c"]) None "k1")
           (with_listener MOnceOrderOf (Many ["a"; "b"; "c"])) 2 ["a"; "b"; "c"]).
  - apply listening_with_listener.
  - vm_compute. lia.
  - repeat split.
  - words.
  - simpl. words.
  - intros (l1 & l2 & E). simpl in E.
    do 6 (try (destruct l1 as [|? l1]; simplify_eq/=)).
Defined.


Lemma one_shot_train_first_round_only_witness :
  ∃ h', announce_all 2
          (with_strangers (round_abc 1 2 3)
           ++ [("a", 4); ("b", 5); ("c", 6)])
          (with_listener MOnceOrderOf (Many ["a"; "b"; "c"])) = Returned () h' ∧
        invocations 0 h' =
        invocations 0 (with_listener MOnceOrderOf (Many ["a"; "b"; "c"]))
        ++ [Merged (merge ∅ (round_abc 1 2 3).*2)].
Proof.
  apply (one_shot_train_first_round_only 0
           (listener_of MOnceOrderOf (Many ["a"; "b"; "c"]) None "k1")
           (with_listener MOnceOrderOf (Many ["a"; "b"; "c"])) 2
           Strict ["a"; "b"; "c"]).
  - apply listening_with_listener.
  - vm_compute. lia.
  - repeat split.
  - reflexivity.
  - reflexivity.
  - reflexivity.
  - reflexivity.
  - words.
  - discriminate.
  - split; [reflexivity|]. split; [words|]. intros _. words; reflexivity.
Defined.

Lemma calls_are_counted_witness :
  ∃ h' c', announce_all 2 [("a", 1); ("b", 2); ("a", 3)]
             (with_listener MOn (One "a")) = Returned () h' ∧
           objects h' !! 0 = Some c' ∧
           callsCount c' + length (invocations 0 (with_listener MOn (One "a")))
           = callsCount (listener_of (Payload:=nat) MOn (One "a") None "k1")
             + length (invocations 0 h').
Proof.
  apply (calls_are_counted 0 (listener_of MOn (One "a") None "k1")
           (with_listener MOn (One "a")) 2).
  - apply listening_with_listener.
  - vm_compute. lia.
Defined.

(** ** Passes over a registry with any listeners *)

Section Passes.

Context {Payload : Type}.

Implicit Types (c : CallbackObject Payload) (h : Hub Payload).
Implicit Types (args : Payload).
Implicit Types (st : list (CallbackObject Payload) * list (nat * Arg Payload)).

(** A listener on a single event and an announce of that event or of
    another. *)
Lemma step_single e e' args c :
  single_state e c →
  (e' = e → callable c = true → callType c = On →
   shot e' args c = Some (Plain args) ∧
   step e' args c = set_sink ∅ (set_callsCount (S (callsCount c)) c)) ∧
  (e' ≠ e → shot e' args c = None ∧ step e' args c = c).
Proof.
  intros [Ht He].
  assert (Hinv : ∀ m, invalidate m e' c = c).
  { intros m. unfold invalidate. by rewrite Ht. }
  assert (Hadv : ∀ m c0, isTrainOfEvent c0 = false → advance m e' args c0 = c0).
  { intros m c0 H0. unfold advance. rewrite H0. by rewrite andb_false_r. }
  split.
  - intros -> Hc Hon.
    assert (Hm : eventMatch c e = true).
    { unfold eventMatch. rewrite Ht, He. simpl. apply String.eqb_refl. }
    unfold shot, step. rewrite Hm, Hinv. unfold fires. rewrite Hc, Hon. simpl.
    unfold argument, after_call, before_call. rewrite Ht, !Hon.
    split; [done|]. by apply Hadv.
  - intros Hne.
    assert (Hm : eventMatch c e' = false).
    { unfold eventMatch. rewrite Ht, He. simpl. by apply String.eqb_neq. }
    split; [by apply shot_no_match|].
    unfold step. rewrite Hm, Hinv. unfold fires. simpl. by apply Hadv.
Qed.

(** A pass over [l] and a listener object that every visit leaves in
    a set [P] of states in which it is called with [a], or not at all. *)
Lemma sweep_invariant (P : CallbackObject Payload → Prop) (a : option (Arg Payload))
    e args o l st c :
  (∀ c0, P c0 → P (step e args c0) ∧ shot e args c0 = a) →
  st.1 !! o = Some c → P c →
  (∃ c', (sweep e args l st).1 !! o = Some c' ∧ P c') ∧
  filter (fun x => x.1 = o) (sweep e args l st).2 =
  filter (fun x => x.1 = o) st.2
  ++ from_option (fun x => replicate (length (filter (fun o' => o' = o) l)) (o, x))
       [] a.
Proof.
  intros HP. revert st c. induction l as [|o' l IH]; intros st c Ho Hc.
  - simpl. split; [by exists c|]. destruct a; simpl; by rewrite app_nil_r.
  - rewrite sweep_cons. destruct (decide (o' = o)) as [->|Hne].
    + destruct (sweep1_at e args st o c Ho) as [E1 E2].
      destruct (HP c Hc) as [Hc' Hs].
      destruct (IH (sweep1 e args st o) (step e args c) E1 Hc') as [IH1 IH2].
      split; [done|]. rewrite IH2, E2, Hs, filter_cons_True by done.
      destruct a; simpl; [|by rewrite !app_nil_r].
      by rewrite <- app_assoc.
    + destruct (sweep1_other e args st o o') as [E1 E2]; [done|].
      destruct (IH (sweep1 e args st o') c) as [IH1 IH2]; [by rewrite E1|done|].
      split; [done|]. by rewrite IH2, E2, filter_cons_False.
Qed.

(** The calls a pass adds are in the order of the registry. *)
Lemma sweep_calls e args l st :
  ∃ cs, (sweep e args l st).2 = st.2 ++ cs ∧ cs.*1 `sublist_of` l.
Proof.
  revert st. induction l as [|o l IH]; intros st.
  - exists []. simpl. by rewrite app_nil_r.
  - rewrite sweep_cons. destruct (IH (sweep1 e args st o)) as (cs & -> & Hcs).
    unfold sweep1. destruct (st.1 !! o) as [c|]; simpl.
    + destruct (shot e args c) as [a|]; simpl.
      * exists ((o, a) :: cs). rewrite <- app_assoc. split; [done|].
        simpl. by apply sublist_skip.
      * exists cs. rewrite app_nil_r. split; [done|]. by apply sublist_cons.
    + exists cs. split; [done|]. by apply sublist_cons.
Qed.

(** One announce on an instance with quiet callbacks, and a listener
    object that stays in a set [P] of states. *)
Lemma emit_invariant (P : CallbackObject Payload → Prop) (a : option (Arg Payload))
    fuel e args o c h :
  connected h = true → inert h → well_formed h →
  length (registry h) < fuel →
  (∀ c0, P c0 → P (step e args c0) ∧ shot e args c0 = a) →
  objects h !! o = Some c → P c →
  ∃ h' c', emit fuel e args h = Returned () h' ∧
           connected h' = true ∧ inert h' ∧ well_formed h' ∧
           registry h' = registry h ∧ keys h' = keys h ∧
           objects h' !! o = Some c' ∧ P c' ∧
           invocations o h' =
           invocations o h ++ from_option (fun x => replicate (times o h) x) [] a.
Proof.
  intros Hc Hq Hwf Hf HP Ho HPc.
  destruct (sweep_invariant P a e args o (registry h) (objects h, calls h) c HP Ho HPc)
    as [(c' & Hc' & HPc') Hfil].
  eexists. exists c'. split; [by apply emit_inert|].
  split; [done|]. split; [|split; [|split; [done|split; [done|split; [done|split; [done|]]]]]].
  - unfold inert. simpl. by apply sweep_quiet.
  - destruct Hwf as [Ha Hl]. split; [done|].
    unfold registry in *. simpl. by rewrite sweep_length.
  - unfold invocations, times. simpl in *. rewrite Hfil, fmap_app. f_equal.
    destruct a; simpl; [|done]. by rewrite fmap_replicate.
Qed.


(** X7: one announce on an instance with quiet callbacks returns,
    calls listeners in the order of the registry, and leaves the
    registry, the key map, the quota table, the ceiling and the count
    of listener objects as they were. *)
Theorem announce_calls_in_registry_order fuel e args h :
  connected h = true → inert h → well_formed h →
  length (registry h) < fuel →
  ∃ h' cs, emit fuel e args h = Returned () h' ∧
           calls h' = calls h ++ cs ∧ cs.*1 `sublist_of` registry h ∧
           registry h' = registry h ∧ keys h' = keys h ∧
           events h' = events h ∧ maxListeners h' = maxListeners h ∧
           console h' = console h ∧
           length (objects h') = length (objects h).
Proof.
  intros Hc Hq Hwf Hf.
  destruct (sweep_calls e args (registry h) (objects h, calls h)) as (cs & Hcs & Hsub).
  eexists. exists cs. split; [by apply emit_inert|]. simpl in *.
  split; [done|]. split; [done|]. split; [done|]. split; [done|].
  split; [done|]. split; [done|]. split; [done|]. by rewrite sweep_length.
Qed.

End Passes.


Lemma announce_calls_in_registry_order_witness :
  ∃ h' cs, emit 3 "a" 7 doubled = Returned () h' ∧
           calls h' = calls doubled ++ cs ∧ cs.*1 `sublist_of` registry doubled ∧
           registry h' = registry doubled ∧ keys h' = keys doubled ∧
           events h' = events doubled ∧ maxListeners h' = maxListeners doubled ∧
           console h' = console doubled ∧
           length (objects h') = length (objects doubled).
Proof.
  apply (announce_calls_in_registry_order 3 "a" 7 doubled).
  - reflexivity.
  - apply Forall_singleton. reflexivity.
  - split; [vm_compute; lia|]. vm_compute. repeat constructor.
  - vm_compute. lia.
Defined.

(** ** Removal and reconnection of keyed listeners *)

Section Reconnection.

Context {Payload : Type}.

Implicit Types (c : CallbackObject Payload) (h : Hub Payload).
Implicit Types (args : Payload) (l : list (string * Payload)).

Lemma filter_absent (o : nat) (l : list nat) :
  o ∉ l → filter (fun o' => o' = o) l = [].
Proof.
  induction l as [|o' l IH]; [done|]. intros [Hne Hl]%not_elem_of_cons.
  rewrite filter_cons_False by done. by apply IH.
Qed.




(** X9: [reOn] of the key of a persistent listener on a single event
    that is still registered puts it into the registry a second time,
    and an announce of its event then calls it twice.  The instance is
    connected, its callbacks do not call it, and the listener stood
    once in the registry. *)
Theorem reconnected_twice_called_twice fuel e args o c k h :
  listening o c h → S (length (registry h)) < fuel →
  single_state e c → callable c = true → callType c = On →
  k ≠ "" → keys h !! k = Some o →
  ∃ h1 h2, reOn k h = Returned () h1 ∧ times o h1 = 2 ∧
           emit fuel e args h1 = Returned () h2 ∧
           invocations o h2 = invocations o h ++ [Plain args; Plain args].
Proof.
  intros (Hc & Hq & [Ha Hl] & (l1 & l2 & Hreg & H1 & H2) & Ho) Hf Hs Hca Hon Hne Hk.
  assert (E1 : reOn k h = Returned () (assign_callbacks (registry h ++ [o]) h)).
  { unfold reOn. rewrite Hk. by destruct k. }
  set (h1 := assign_callbacks (registry h ++ [o]) h) in *.
  assert (Ht : times o h1 = 2).
  { unfold times, h1. rewrite registry_assign, Hreg.
    rewrite !filter_app, filter_cons_True, (filter_cons_True _ o []) by done.
    by rewrite (filter_absent o l1), (filter_absent o l2). }
  set (P := fun c0 : CallbackObject Payload =>
              single_state e c0 ∧ callable c0 = true ∧ callType c0 = On).
  destruct (emit_invariant P (Some (Plain args)) fuel e args o c h1)
    as (h2 & c' & E2 & _ & _ & _ & _ & _ & _ & _ & Hi); try done.
  - split; [simpl; rewrite length_app; simpl; lia|].
    unfold h1. rewrite registry_assign. simpl. apply Forall_app. split; [done|].
    apply Forall_singleton. by eapply lookup_lt_Some.
  - unfold h1. rewrite registry_assign, length_app. simpl. lia.
  - intros c0 (Hs0 & Hca0 & Hon0).
    destruct (step_single e e args c0 Hs0) as [[Hshot Hstep] _]; [done..|].
    split; [|done]. rewrite Hstep. by destruct Hs0.
  - exists h1, h2. split; [done|]. split; [done|]. split; [done|].
    rewrite Hi, Ht. done.
Qed.

(** X10: when two register operations are given the same key, the key
    map keeps the second listener only: [remove] of the key takes both
    out of the registry and [reOn] of the key puts back the second and
    not the first. *)
Theorem same_key_reconnects_second_only m1 m2 ev1 ev2 f1 f2 k h :
  callbacks h < length (arrays h) → maxListeners h = None →
  m1 ≠ MOnOrderOf → m2 ≠ MOnOrderOf → k ≠ "" →
  ∃ h1 h2 h3 h4,
    register m1 ev1 f1 k h = Returned (Some k) h1 ∧
    register m2 ev2 f2 k h1 = Returned (Some k) h2 ∧
    registry h2 = registry h ++ [length (objects h); S (length (objects h))] ∧
    remove k h2 = Returned () h3 ∧
    (length (objects h) ∉ registry h3) ∧ (S (length (objects h)) ∉ registry h3) ∧
    reOn k h3 = Returned () h4 ∧
    registry h4 = registry h3 ++ [S (length (objects h))].
Proof.
  intros Ha Hmax Hm1 Hm2 Hne.
  assert (Hfull : ∀ h0 : Hub Payload, maxListeners h0 = None → full h0 = false).
  { intros h0 H0. unfold full. by rewrite H0. }
  destruct (register_returns m1 ev1 f1 k h Ha (Hfull h Hmax))
    as (h1 & ms1 & E1 & R1 & O1 & K1 & _ & M1 & _ & A1).
  destruct (register_returns m2 ev2 f2 k h1 A1)
    as (h2 & ms2 & E2 & R2 & O2 & K2 & _ & _ & _ & A2).
  { apply Hfull. congruence. }
  assert (Hlen : length (objects h1) = S (length (objects h))).
  { rewrite O1, length_app. simpl. lia. }
  rewrite Hlen in *.
  destruct (remove_known k (S (length (objects h))) h2 Hne)
    as (h3 & E3 & K3 & O3 & R3).
  { rewrite K2. apply lookup_insert_eq. }
  assert (Hkey : ∀ (m : Method) ev f, m ≠ MOnOrderOf →
            key (listener_of (Payload:=Payload) m ev f k) = Some k).
  { intros m ev f Hm. by destruct m. }
  assert (Hno1 : length (objects h) ∉ registry h3).
  { rewrite R3, list_elem_of_filter, O2, O1.
    rewrite <- app_assoc. rewrite lookup_app_r, Nat.sub_diag by done. simpl.
    rewrite Hkey by done. intros [Hx _]. by apply Hx. }
  assert (Hno2 : S (length (objects h)) ∉ registry h3).
  { rewrite R3, list_elem_of_filter, O2.
    rewrite lookup_app_r by lia. rewrite Hlen, Nat.sub_diag. simpl.
    rewrite Hkey by done. intros [Hx _]. by apply Hx. }
  exists h1, h2, h3. eexists.
  split; [done|]. split; [done|].
  split; [by rewrite R2, R1, <- app_assoc|].
  split; [done|]. split; [done|]. split; [done|].
  unfold reOn. rewrite K3, K2, lookup_insert_eq. destruct k; [done|]. simpl.
  split; [done|]. by rewrite registry_assign.
Qed.

End Reconnection.



Lemma reconnected_twice_called_twice_witness :
  ∃ h1 h2, reOn "k1" (with_listener MOn (One "a")) = Returned () h1 ∧
           times 0 h1 = 2 ∧
           emit 3 "a" 7 h1 = Returned () h2 ∧
           invocations 0 h2 =
           invocations 0 (with_listener MOn (One "a")) ++ [Plain 7; Plain 7].
Proof.
  apply (reconnected_twice_called_twice 3 "a" 7 0
           (listener_of MOn (One "a") None "k1") "k1"
           (with_listener MOn (One "a"))).
  - apply listening_with_listener.
  - vm_compute. lia.
  - split; reflexivity.
  - reflexivity.
  - reflexivity.
  - discriminate.
  - reflexivity.
Defined.

Lemma same_key_reconnects_second_only_witness :
  ∃ h1 h2 h3 h4 : Hub nat,
    register MOn (One "a") None "k1" fresh = Returned (Some "k1") h1 ∧
    register MOnce (One "b") None "k1" h1 = Returned (Some "k1") h2 ∧
    registry h2 = registry fresh ++ [length (objects fresh); S (length (objects fresh))] ∧
    remove "k1" h2 = Returned () h3 ∧
    (length (objects fresh) ∉ registry h3) ∧
    (S (length (objects fresh)) ∉ registry h3) ∧
    reOn "k1" h3 = Returned () h4 ∧
    registry h4 = registry h3 ++ [S (length (objects fresh))].
Proof.
  apply (same_key_reconnects_second_only MOn MOnce (One "a") (One "b")
           None None "k1" fresh).
  - simpl. lia.
  - reflexivity.
  - discriminate.
  - discriminate.
  - discriminate.
Defined.

(** ** The connected flag *)

Section Lifecycle.

Context {Payload : Type}.

Context (lifecycle : string → list string → bool → Payload).

Implicit Types (c : CallbackObject Payload) (h : Hub Payload).
Implicit Types (args : Payload).

(** X11: [disconnect()] calls no listener, not even one registered
    for [disconnect]: it clears the flag before it announces, so its
    own announce is discarded with a warning, as is every announce
    after it. *)
Theorem disconnect_calls_nobody fuel h :
  ∃ h', disconnect lifecycle fuel h = Returned () h' ∧
        connected h' = false ∧
        calls h' = calls h ∧ objects h' = objects h ∧
        registry h' = registry h ∧
        console h' =
        console h ++ (if connected h then [discarding "disconnect" h] else []) ∧
        ∀ fuel' e args,
          emit fuel' e args h' = Returned () (say [discarding e h'] h').
Proof.
  unfold disconnect. destruct (connected h) eqn:Hc; simpl.
  - unfold emit. simpl. eexists. split; [done|]. simpl.
    split; [done|]. split; [done|]. split; [done|]. split; [done|].
    split; [done|]. intros. done.
  - exists h. split; [done|]. split; [done|]. split; [done|]. split; [done|].
    split; [done|]. split; [by rewrite app_nil_r|].
    intros. unfold emit. by rewrite Hc.
Qed.



End Lifecycle.



(** ** Ceilings and quotas *)

Section Ceilings.

Context {Payload : Type}.

Implicit Types (c : CallbackObject Payload) (h : Hub Payload).
Implicit Types (f : option Callback).

Lemma check_event_silent e h : check_event e h = Returned () h.
Proof.
  unfold check_event. destruct (events h !! e) as [q|]; [|done].
  destruct (Num.truthy (Quota.maxListeners q)); [|done].
  assert (Hnan : match events h !! "count" with
                 | Some _ | None => Num.NaN
                 end = Num.NaN :> Num.t) by (by case_match).
  rewrite Hnan. done.
Qed.

Lemma forEach_check_silent l h : forEach check_event l h = Returned () h.
Proof.
  induction l as [|e l IH]; simpl; [done|].
  unfold bind. by rewrite check_event_silent.
Qed.

Lemma check_global_exact h :
  check_global h =
  if full h then Thrown max_listener_limit h
  else Returned () (say (approaching h) h).
Proof.
  unfold check_global, full, approaching. cbv zeta.
  destruct (Num.truthy (maxListeners h)); cbn [andb];
    [|by rewrite say_nil].
  destruct (Num.ge (Num.of_nat (length (registry h))) (maxListeners h));
    [done|].
  case_match; [done|by rewrite say_nil].
Qed.

Lemma register_exact m ev f k h :
  register m ev f k h =
  if full h then Thrown max_listener_limit (say (disconnected_warning h) h)
  else Returned (Some k)
         (count_event (stringified ev)
            (install (listener_of m ev f k) k
               (say (disconnected_warning h ++ approaching h) h))).
Proof.
  assert (Hv : validate ev h =
               if full h
               then Thrown max_listener_limit (say (disconnected_warning h) h)
               else Returned true
                      (say (disconnected_warning h ++ approaching h) h)).
  { unfold validate, disconnected_warning.
    set (h1 := if connected h then h else _).
    assert (Hh1 : h1 = say (if connected h then [] else
                     ["[LocalSocket]: Instance is disconnected"]) h).
    { unfold h1. destruct (connected h); [by rewrite say_nil|done]. }
    rewrite Hh1. unfold bind at 1. rewrite check_global_exact, full_say.
    destruct (full h); [done|].
    unfold bind. rewrite forEach_check_silent. unfold ret.
    by rewrite say_say. }
  destruct m; simpl; unfold on, onOrderOf, onceOrderOf, once, bind;
    rewrite Hv; by destruct (full h).
Qed.


(** X14: [limitConnections] takes a negative ceiling, and no listener
    can be registered under it: every register operation throws the
    error of the global ceiling, whatever the registry holds. *)
Theorem negative_ceiling_blocks_registration value m ev f k h :
  (value < 0)%Z →
  ∃ h1 h2, limitConnections value h = Returned () h1 ∧
           register m ev f k h1 = Thrown max_listener_limit h2 ∧
           registry h2 = registry h ∧ keys h2 = keys h.
Proof.
  intros Hv. unfold limitConnections.
  destruct (Z.eqb_spec value 0) as [->|Hne]; [lia|].
  eexists. eexists. split; [done|]. split.
  - apply register_throws. unfold full. simpl.
    destruct (Z.eqb_spec value 0) as [|_]; [done|]. simpl.
    apply Z.leb_le. lia.
  - done.
Qed.

(** X15: what a register operation tells: the warning of a
    disconnected instance, then the error of the global ceiling or the
    warning that it is near, and nothing else.  The warning and the
    error of a ceiling set for a pattern never come. *)
Theorem register_warns_of_global_ceiling_only m ev f k h :
  ∃ h1, register m ev f k h =
        (if full h then Thrown max_listener_limit h1 else Returned (Some k) h1) ∧
        console h1 =
        console h ++ disconnected_warning h ++
        (if full h then [] else approaching h).
Proof.
  rewrite register_exact. destruct (full h); eexists; (split; [done|]).
  - simpl. by rewrite app_nil_r.
  - destruct (count_event_frame (stringified ev)
                (install (listener_of m ev f k) k
                   (say (disconnected_warning h ++ approaching h) h)))
      as [q ->].
    done.
Qed.



End Ceilings.

Lemma negative_ceiling_blocks_registration_witness :
  ∃ h1 h2 : Hub nat,
    limitConnections (-1) fresh = Returned () h1 ∧
    on (One "a") None "k1" h1 = Thrown max_listener_limit h2 ∧
    registry h2 = registry fresh ∧ keys h2 = keys fresh.
Proof.
  apply (negative_ceiling_blocks_registration (-1)%Z MOn (One "a") None "k1" fresh).
  lia.
Defined.




(** ** Errors of callbacks and the reset *)

Section Aborts.

Context {Payload : Type}.

Implicit Types (c : CallbackObject Payload) (h : Hub Payload).
Implicit Types (f : option Callback) (args : Payload).

Lemma modify_id o g c h : objects h !! o = Some c → g c = c → modify o g h = h.
Proof.
  intros Ho Hg. destruct h as [? ? ? ? ? ? ? ? objs ? ? ?]. unfold modify.
  simpl in *. f_equal. apply list_eq. intros i.
  destruct (decide (i = o)) as [->|Hi].
  - by rewrite list_lookup_alter_eq, Ho; simpl; rewrite Hg.
  - by rewrite list_lookup_alter_ne.
Qed.

Lemma visit_throws o e args c m ev f k b h :
  connected h = true → objects h !! o = Some c →
  single_state e c → callable c = true → callType c = On →
  body (cb c) = CallRegister m ev f k :: b → full h = true →
  visit o e args h = Thrown max_listener_limit (enter o (Plain args) h).
Proof.
  intros Hc Ho [Ht He] Hca Hon Hb Hfull.
  assert (Hm : eventMatch c e = true).
  { unfold eventMatch. rewrite Ht, He. simpl. apply String.eqb_refl. }
  assert (Hinv : invalidate true e c = c).
  { unfold invalidate. by rewrite Ht. }
  unfold visit. rewrite Ho. cbv zeta. rewrite Hm, Hinv.
  rewrite (modify_id o (invalidate true e) c h Ho Hinv).
  unfold fires. rewrite Hca, Hon. cbn [andb].
  assert (Hbc : before_call c = c) by (unfold before_call; by rewrite Hon).
  unfold bind at 1. unfold bind at 1.
  rewrite (modify_id o before_call c h Ho Hbc).
  rewrite Hb. cbn [run perform]. unfold bind at 1. unfold bind at 1. unfold bind at 1.
  rewrite register_throws by done.
  unfold disconnected_warning. cbn [connected enter]. rewrite Hc.
  unfold argument. by rewrite Ht, say_nil.
Qed.

(** X17: after [drop()] nothing is left to bring back: [reOn] and
    [remove] of a key, one given out before too, change nothing, and an
    announce on the connected instance calls nobody.  The key is any
    string but the names every object inherits: the empty [this.keys]
    still finds those, and [reOn] of one appends what it finds. *)
Theorem drop_leaves_nothing_to_reconnect fuel e args k h :
  inherited k = false → connected h = true → 0 < fuel →
  ∃ h1, drop h = Returned () h1 ∧
        reOn k h1 = Returned () h1 ∧ remove k h1 = Returned () h1 ∧
        emit fuel e args h1 = Returned () h1.
Proof.
  intros _ Hc Hf. eexists. split; [done|]. split; [|split].
  - unfold reOn. simpl. rewrite lookup_empty. by destruct (Str.truthy k).
  - unfold remove. simpl. rewrite lookup_empty. by destruct (Str.truthy k).
  - unfold emit. simpl. rewrite Hc. simpl.
    destruct fuel as [|fuel]; [lia|]. simpl. unfold bind. simpl.
    by rewrite lookup_app_r, Nat.sub_diag.
Qed.

(** X18: an error thrown in a callback leaves [emit]: when the
    callback of the first listener of the registry registers a
    listener on an instance at its ceiling, the announce throws the
    error of the ceiling right after that call.  The count of calls of
    the listener is not raised and no listener after it is looked
    at. *)
Theorem callback_error_aborts_announce fuel e args o rest c m ev f k b h :
  connected h = true → registry h = o :: rest →
  objects h !! o = Some c →
  single_state e c → callable c = true → callType c = On →
  body (cb c) = CallRegister m ev f k :: b → full h = true →
  0 < fuel →
  emit fuel e args h = Thrown max_listener_limit (enter o (Plain args) h).
Proof.
  intros Hc Hreg Ho Hs Hca Hon Hb Hfull Hf.
  unfold emit. rewrite Hc. simpl negb. cbv iota.
  destruct fuel as [|fuel]; [lia|].
  unfold bind at 1. simpl iterate.
  assert (Ha : arrays h !! callbacks h = Some (o :: rest)).
  { unfold registry in Hreg. by destruct (arrays h !! callbacks h); simplify_eq/=. }
  rewrite Ha. simpl. unfold bind at 1.
  by rewrite (visit_throws o e args c m ev f k b h).
Qed.

End Aborts.

Lemma drop_leaves_nothing_to_reconnect_witness :
  ∃ h1, drop loose_abc_a = Returned () h1 ∧
        reOn "k1" h1 = Returned () h1 ∧ remove "k1" h1 = Returned () h1 ∧
        emit 1 "b" 2 h1 = Returned () h1.
Proof.
  apply (drop_leaves_nothing_to_reconnect 1 "b" 2 "k1" loose_abc_a).
  - reflexivity.
  - reflexivity.
  - lia.
Defined.

Lemma callback_error_aborts_announce_witness :
  emit 3 "a" 7 brimful = Thrown max_listener_limit (enter 0 (Plain 7) brimful).
Proof.
  apply (callback_error_aborts_announce 3 "a" 7 0 [1]
           (listener_of MOn (One "a")
              (Some (Fn [CallRegister MOn (One "b") None "k3"])) "k1")
           MOn (One "b") None "k3" [] brimful).
  - reflexivity.
  - reflexivity.
  - reflexivity.
  - split; reflexivity.
  - reflexivity.
  - reflexivity.
  - reflexivity.
  - reflexivity.
  - lia.
Defined.
